(** * vphys_parser: collision geometry extraction

    A shallow embedding of [vphys_parser.cpp]: the hex blob decoder
    [bytes_to_vec], the collision attribute resolver
    [get_collision_attribute_indices], the half-edge hull walk and the indexed
    mesh loop of [main], and the final write of the triangle buffer.

    Conventions.
    - [uint8_t] is [Byte.byte].  A [char], and an [int] that may be
      negative, is a [Z], with the conversions of the source written out;
      sizes, loop counters and the half-edge indices taken from a [uint8_t]
      are [nat].
    - [float] values are never computed with: the program only moves them
      from a decoded blob to the output buffer, so a [float] is its four
      bytes of storage, in memory order.
    - A [vector] is a list.  Reading or writing outside an array has no
      defined result in the source; every loop of the model therefore
      returns the state it reached together with a [status], and
      [OutOfRange] marks the point where the source would have left the
      array. *)

From Stdlib Require Import ZArith List String Ascii Bool Arith Lia.
From Stdlib Require Import Strings.Byte DecimalString DecimalNat.
From Stdlib Require Import Floats.SpecFloat.
Import ListNotations.

Local Open Scope nat_scope.

(** ** Outcome of a loop *)

Inductive status : Type :=
| Done          (* ran to its end inside every array *)
| OutOfRange    (* an access outside an array was reached *)
| OutOfFuel.    (* the iteration allowance of the model was used up *)

(** [v[i]] for a vector: [None] is an index outside the vector. *)
Definition at_index {A : Type} (v : list A) (i : nat) : option A := nth_error v i.

Notation "'read' x '<-' e 'or' d ';' k" :=
  (match e with Some x => k | None => d end)
  (at level 10, x name, e at level 10, d at level 10, k at level 200,
   only parsing).

(** ** Data model (lines 52-60) *)

Record float : Type := mkFloat { fb0 : byte; fb1 : byte; fb2 : byte; fb3 : byte }.

Record Vector3 : Type := mkVector3 { x : float; y : float; z : float }.

Record Triangle : Type := mkTriangle { p1 : Vector3; p2 : Vector3; p3 : Vector3 }.

Record Edge : Type := mkEdge { next : byte; twin : byte; origin : byte; face : byte }.

(** The value-initialised [float] and [Vector3]. *)
Definition zero_float : float := mkFloat x00 x00 x00 x00.
Definition zero_vector : Vector3 := mkVector3 zero_float zero_float zero_float.

(** ** Hex blob decoder (lines 17-50) *)

(** Value of a [char] as the [int] it is promoted to ([char] is signed). *)
Definition char_val (c : ascii) : Z :=
  let n := Z.of_N (N_of_ascii c) in
  if (n <? 128)%Z then n else (n - 256)%Z.

Definition INRANGE (x a b : Z) : bool := ((a <=? x) && (x <=? b))%Z.

Definition getBits (x : Z) : Z :=
  if INRANGE x (char_val "0") (char_val "9")
  then (x - char_val "0")%Z
  else (Z.land x (Z.lnot 32) - char_val "A" + 10)%Z.

Definition get_byte (x0 x1 : Z) : Z :=
  Z.lor (Z.shiftl (getBits x0) 4) (getBits x1).

(** Conversion of an [int] to [uint8_t]: reduction modulo 256. *)
Definition to_uint8 (v : Z) : byte :=
  match Byte.of_N (Z.to_N (v mod 256)) with
  | Some b => b
  | None => x00
  end.

(** [buf[i] = b] for [i] inside the buffer. *)
Definition store (i : nat) (b : byte) (buf : list byte) : list byte :=
  firstn i buf ++ b :: skipn (S i) buf.

(** The copy loop of [bytes_to_vec] (lines 36-47).  [p1] is the rest of the
    text, the end of the string being its terminator; [p2] is the offset of
    the write pointer in the storage [buf] of the vector. *)
Fixpoint decode_loop (p1 : string) (p2 : nat) (buf : list byte)
  : list byte * status :=
  match p1 with
  | EmptyString => (buf, Done)
  | String c rest =>
      if Ascii.eqb c zero then (buf, Done)
      else if Ascii.eqb c " " then decode_loop rest p2 buf
      else
        let x1 := match rest with String d _ => d | EmptyString => zero end in
        if List.length buf <=? p2 then (buf, OutOfRange)
        else
          let buf' := store p2 (to_uint8 (get_byte (char_val c) (char_val x1))) buf in
          match rest with
          | EmptyString =>
              (* [p1 += 2] steps over the terminator; the loop test then
                 reads behind the string *)
              (buf', OutOfRange)
          | String _ rest' => decode_loop rest' (S p2) buf'
          end
  end.

(** Element types of the template: size in bytes and the value held by
    [sizeof] bytes of storage. *)
Class Element (Ty : Type) : Type := {
  sizeof : nat;
  sizeof_pos : 0 < sizeof;
  from_bytes : list byte -> Ty
}.

Definition byte_val (b : byte) : Z := Z.of_N (Byte.to_N b).

(** Little-endian value of four bytes as a signed 32-bit [int]. *)
Definition int_of_bytes (l : list byte) : Z :=
  let u := (byte_val (nth 0 l x00)
            + 256 * byte_val (nth 1 l x00)
            + 65536 * byte_val (nth 2 l x00)
            + 16777216 * byte_val (nth 3 l x00))%Z in
  if (u <? 2147483648)%Z then u else (u - 4294967296)%Z.

Definition float_of_bytes (l : list byte) : float :=
  mkFloat (nth 0 l x00) (nth 1 l x00) (nth 2 l x00) (nth 3 l x00).

#[export] Instance Element_uint8_t : Element byte :=
  {| sizeof := 1; sizeof_pos := Nat.lt_0_succ 0; from_bytes := fun l => nth 0 l x00 |}.

#[export] Instance Element_int : Element Z :=
  {| sizeof := 4; sizeof_pos := Nat.lt_0_succ 3; from_bytes := int_of_bytes |}.

#[export] Instance Element_float : Element float :=
  {| sizeof := 4; sizeof_pos := Nat.lt_0_succ 3; from_bytes := float_of_bytes |}.

(** The first [k] consecutive groups of [sz] bytes of a buffer. *)
Fixpoint chunks (sz k : nat) (buf : list byte) : list (list byte) :=
  match k with
  | 0 => []
  | S k' => firstn sz buf :: chunks sz k' (skipn sz buf)
  end.

(** The storage of a [vector<Ty>] seen as its elements. *)
Definition elements {Ty : Type} `{Element Ty} (buf : list byte) : list Ty :=
  map from_bytes (chunks sizeof (List.length buf / sizeof) buf).

Definition bytes_to_vec {Ty : Type} `{Element Ty} (bytes : string)
  : list Ty * status :=
  match bytes with
  | EmptyString => ([], Done)
  | _ =>
      let num_bytes := String.length bytes / 3 in
      let num_elements := num_bytes / sizeof in
      let vec := repeat x00 ((num_elements + 1) * sizeof) in
      let '(buf, st) := decode_loop bytes 0 vec in
      (elements buf, st)
  end.

(** ** Collision attribute resolver (lines 80-113) *)

(** [::tolower] in the "C" locale, which is the one the program runs in. *)
Definition tolower (c : ascii) : ascii :=
  let n := nat_of_ascii c in
  if (65 <=? n) && (n <=? 90) then ascii_of_nat (n + 32) else c.

Fixpoint transform (f : ascii -> ascii) (s : string) : string :=
  match s with
  | EmptyString => EmptyString
  | String c rest => String (f c) (transform f rest)
  end.

(** [s.find_last_of(ch)]; [None] is [string::npos]. *)
Fixpoint find_last_of (s : string) (ch : ascii) : option nat :=
  match s with
  | EmptyString => None
  | String c rest =>
      match find_last_of rest ch with
      | Some i => Some (S i)
      | None => if Ascii.eqb c ch then Some 0 else None
      end
  end.

Definition quote : ascii := ascii_of_nat 34.

Definition front_is (s : string) (ch : ascii) : bool :=
  match s with
  | String c _ => Ascii.eqb c ch
  | EmptyString => false
  end.

Definition clean_collision_string (str : string) : string :=
  let cleaned := str in
  let cleaned :=
    if (2 <=? String.length cleaned) && front_is cleaned quote then
      match find_last_of cleaned quote with
      | Some last_quote =>
          if 0 <? last_quote then substring 1 (last_quote - 1) cleaned
          else cleaned
      | None => cleaned
      end
    else cleaned in
  transform tolower cleaned.

(** [std::to_string] of a non-negative [int]. *)
Definition to_string (n : nat) : string :=
  NilEmpty.string_of_uint (Nat.to_uint n).

(** The parser of [kv3-parser.hpp] as this file uses it: an object
    answering [get_value(path)] with a [string]. *)
Record c_kv3_parser : Type := { get_value : string -> string }.

Definition collision_group_path (index : nat) : string :=
  ("m_collisionAttributes[" ++ to_string index ++ "].m_CollisionGroupString")%string.

(** The [while (true)] loop of lines 98-111; one unit of [fuel] per slot
    queried.  The [int] counter is a [nat]: the two agree below 2^31
    slots. *)
Fixpoint collision_attribute_scan (fuel : nat) (parser : c_kv3_parser)
  (index : nat) (indices : list nat) : list nat * status :=
  match fuel with
  | 0 => (indices, OutOfFuel)
  | S fuel' =>
      let index_str := to_string index in
      let collision_group_string :=
        get_value parser
          ("m_collisionAttributes[" ++ index_str ++ "].m_CollisionGroupString")%string in
      if negb (String.eqb collision_group_string EmptyString) then
        let cleaned := clean_collision_string collision_group_string in
        let indices' :=
          if String.eqb cleaned "default" then indices ++ [index] else indices in
        collision_attribute_scan fuel' parser (S index) indices'
      else (indices, Done)
  end.

Definition get_collision_attribute_indices (fuel : nat) (parser : c_kv3_parser)
  : list nat * status :=
  collision_attribute_scan fuel parser 0 [].

(** Modelled from the spec: the property store behind the parser, which is
    not part of this file.  The spec gives its query as
    [get(path) -> optional<string>], absence being distinct from an empty
    string. *)
Definition property_store : Type := string -> option string.

(** Modelled from the spec: the parser of [kv3-parser.hpp] over a store.
    The answer of [get_value] is a plain [string], and absence is to be
    told from an empty string: a value that is absent is answered with the
    empty text, a string value that is present with its text as the
    document writes it, between double quotes, [tail] being what stands
    behind the closing quote (white space or a line feed, which the
    cleaning of labels is written to pass over). *)
Definition kv3_parser (tail : string) (store : property_store) : c_kv3_parser :=
  {| get_value := fun path =>
       match store path with
       | Some s => String quote (s ++ String quote tail)
       | None => EmptyString
       end |}.

(** ** Half-edge hull triangulation (lines 195-226) *)

(** A [uint8_t] used as an index or promoted to [int]. *)
Definition u8 (b : byte) : nat := Byte.to_nat b.

Section Hull.
Variable vertices : list Vector3.
Variable edges_processed : list Edge.

(** Lines 212-222: the three origin tests, left to right, and the
    [push_back]. *)
Definition push_fan_triangle (start_edge edge nextEdge : nat)
  (triangles : list Triangle) : list Triangle * status :=
  read es <- at_index edges_processed start_edge or (triangles, OutOfRange);
  if u8 (origin es) <? List.length vertices then
    read ee <- at_index edges_processed edge or (triangles, OutOfRange);
    if u8 (origin ee) <? List.length vertices then
      read en <- at_index edges_processed nextEdge or (triangles, OutOfRange);
      if u8 (origin en) <? List.length vertices then
        read v1 <- at_index vertices (u8 (origin es)) or (triangles, OutOfRange);
        read v2 <- at_index vertices (u8 (origin ee)) or (triangles, OutOfRange);
        read v3 <- at_index vertices (u8 (origin en)) or (triangles, OutOfRange);
        (triangles ++ [mkTriangle v1 v2 v3], Done)
      else (triangles, Done)
    else (triangles, Done)
  else (triangles, Done).

(** The [while] loop of lines 202-225.  Each entry into the loop body
    takes one unit of [fuel]. *)
Fixpoint face_walk (fuel : nat) (start_edge edge face_vertex_count : nat)
  (triangles : list Triangle) : list Triangle * status :=
  if negb (edge =? start_edge) && (face_vertex_count <? 100) then
    match fuel with
    | 0 => (triangles, OutOfFuel)
    | S fuel' =>
        if List.length edges_processed <=? edge then (triangles, Done)
        else
          read e <- at_index edges_processed edge or (triangles, OutOfRange);
          let nextEdge := u8 (next e) in
          if List.length edges_processed <=? nextEdge then (triangles, Done)
          else
            let '(triangles', st) :=
              push_fan_triangle start_edge edge nextEdge triangles in
            match st with
            | Done =>
                face_walk fuel' start_edge nextEdge (S face_vertex_count) triangles'
            | _ => (triangles', st)
            end
    end
  else (triangles, Done).

(** The [for] loop over the faces, lines 195-226; [fuel] is the allowance
    of each face's walk. *)
Fixpoint hull_faces (fuel : nat) (faces_processed : list byte)
  (triangles : list Triangle) : list Triangle * status :=
  match faces_processed with
  | [] => (triangles, Done)
  | start_edge :: rest =>
      if List.length edges_processed <=? u8 start_edge then
        hull_faces fuel rest triangles
      else
        read e <- at_index edges_processed (u8 start_edge) or (triangles, OutOfRange);
        let edge := u8 (next e) in
        let '(triangles', st) := face_walk fuel (u8 start_edge) edge 0 triangles in
        match st with
        | Done => hull_faces fuel rest triangles'
        | _ => (triangles', st)
        end
  end.
End Hull.

(** The hull triangulation; a walk enters its loop body at most as often as
    the step counter of the source allows, so its allowance is 100. *)
Definition triangulate_hull (vertices : list Vector3) (faces : list byte)
  (edges : list Edge) (triangles : list Triangle) : list Triangle * status :=
  hull_faces vertices edges 100 faces triangles.

(** ** Indexed mesh triangulation (lines 272-282) *)

(** Conversion of an [int] to the 64-bit [size_t] it is compared with and
    used as. *)
Definition to_size_t (v : Z) : Z := (v mod 2 ^ 64)%Z.

Definition is_int (v : Z) : Prop := (- 2 ^ 31 <= v < 2 ^ 31)%Z.

Section Mesh.
Variable vertices : list Vector3.
Variable triangle_processed : list Z.

Definition below_size (v : Z) : bool :=
  (to_size_t v <? Z.of_nat (List.length vertices))%Z.

Definition vertex_at (v : Z) : option Vector3 :=
  at_index vertices (Z.to_nat (to_size_t v)).

(** Lines 273-281: the three tests, left to right, and the [push_back]. *)
Definition push_mesh_triangle (i : nat) (triangles : list Triangle)
  : list Triangle * status :=
  read a <- at_index triangle_processed i or (triangles, OutOfRange);
  if below_size a then
    read b <- at_index triangle_processed (i + 1) or (triangles, OutOfRange);
    if below_size b then
      read c <- at_index triangle_processed (i + 2) or (triangles, OutOfRange);
      if below_size c then
        read v1 <- vertex_at a or (triangles, OutOfRange);
        read v2 <- vertex_at b or (triangles, OutOfRange);
        read v3 <- vertex_at c or (triangles, OutOfRange);
        (triangles ++ [mkTriangle v1 v2 v3], Done)
      else (triangles, Done)
    else (triangles, Done)
  else (triangles, Done).

(** The [for] loop of lines 272-282.  The [int] counter [i] is a [nat]: the
    two agree on every array of fewer than 2^31 - 3 indices. *)
Fixpoint mesh_loop (fuel : nat) (i : nat) (triangles : list Triangle)
  : list Triangle * status :=
  if i <? List.length triangle_processed then
    match fuel with
    | 0 => (triangles, OutOfFuel)
    | S fuel' =>
        let '(triangles', st) := push_mesh_triangle i triangles in
        match st with
        | Done => mesh_loop fuel' (i + 3) triangles'
        | _ => (triangles', st)
        end
    end
  else (triangles, Done).
End Mesh.

(** The loop advances by three, so one unit of fuel per index is ample. *)
Definition triangulate_mesh (vertices : list Vector3) (indices : list Z)
  (triangles : list Triangle) : list Triangle * status :=
  mesh_loop vertices indices (List.length indices) 0 triangles.

(** The mesh triangulation as the spec words it: the indices taken three at
    a time, a triple giving its triangle when all three are non-negative
    and below the number of vertices, and nothing otherwise; fewer than
    three indices at the end are left alone. *)
Definition index_in_bounds (vertices : list Vector3) (v : Z) : bool :=
  ((0 <=? v) && (v <? Z.of_nat (List.length vertices)))%Z.

Definition vertex (vertices : list Vector3) (v : Z) : Vector3 :=
  nth (Z.to_nat v) vertices zero_vector.

Definition triple_triangles (vertices : list Vector3) (a b c : Z)
  : list Triangle :=
  if index_in_bounds vertices a && index_in_bounds vertices b
     && index_in_bounds vertices c
  then [mkTriangle (vertex vertices a) (vertex vertices b) (vertex vertices c)]
  else [].

Fixpoint mesh_triangles (vertices : list Vector3) (indices : list Z)
  : list Triangle :=
  match indices with
  | a :: b :: c :: rest =>
      triple_triangles vertices a b c ++ mesh_triangles vertices rest
  | _ => []
  end.

(** ** Output (lines 300-311) *)

Definition float_bytes (f : float) : list byte := [fb0 f; fb1 f; fb2 f; fb3 f].

Definition Vector3_bytes (v : Vector3) : list byte :=
  float_bytes (x v) ++ float_bytes (y v) ++ float_bytes (z v).

(** Storage of a [Triangle]: nine floats, one after the other. *)
Definition Triangle_bytes (t : Triangle) : list byte :=
  Vector3_bytes (p1 t) ++ Vector3_bytes (p2 t) ++ Vector3_bytes (p3 t).

Definition sizeof_Triangle : nat := 36.

(** [triangles.data()] as bytes. *)
Definition data (triangles : list Triangle) : list byte :=
  flat_map Triangle_bytes triangles.

(** What is written for a document: [None] when no file is written.
    [is_open] is the answer of [out.is_open()]. *)
Definition write_tri (is_open : bool) (triangles : list Triangle)
  : option (list byte) :=
  if 0 <? List.length triangles then
    if is_open
    then Some (firstn (List.length triangles * sizeof_Triangle) (data triangles))
    else None
  else None.

(** ** Vocabulary of the statements *)

(** [v.empty()]. *)
Definition empty {A : Type} (v : list A) : bool :=
  match v with
  | [] => true
  | _ :: _ => false
  end.

(** The blob text the documents carry: two hex digits and one space for
    each byte, the last byte included. *)
Definition is_hex_digit (c : ascii) : bool :=
  let n := nat_of_ascii c in
  ((48 <=? n) && (n <=? 57)) || ((65 <=? n) && (n <=? 70))
  || ((97 <=? n) && (n <=? 102)).

Fixpoint hex_pair_text (s : string) : bool :=
  match s with
  | EmptyString => true
  | String a (String b (String sp rest)) =>
      is_hex_digit a && is_hex_digit b && Ascii.eqb sp " " && hex_pair_text rest
  | _ => false
  end.

(** The half-edge following [e] in its face loop, and the half-edge reached
    from [start] after [k] steps. *)
Definition next_of (edges : list Edge) (e : nat) : nat :=
  match nth_error edges e with
  | Some r => u8 (next r)
  | None => e
  end.

Definition orbit (edges : list Edge) (start k : nat) : nat :=
  Nat.iter k (next_of edges) start.

Definition origin_of (edges : list Edge) (e : nat) : nat :=
  match nth_error edges e with
  | Some r => u8 (origin r)
  | None => 0
  end.

(** The vertex a half-edge starts from. *)
Definition origin_vertex (vertices : list Vector3) (edges : list Edge)
  (e : nat) : Vector3 :=
  nth (origin_of edges e) vertices zero_vector.

(** A closed face loop of [n] half-edges from [start]: the [n]-th step is
    the first to come back to [start], every half-edge of the loop is an
    index of [edges] and every origin an index of [vertices]. *)
Definition face_loop (vertices : list Vector3) (edges : list Edge)
  (start n : nat) : bool :=
  (orbit edges start n =? start)
  && forallb (fun k => negb (orbit edges start k =? start)) (seq 1 (n - 1))
  && forallb (fun k => (orbit edges start k <? List.length edges)
                       && (origin_of edges (orbit edges start k)
                           <? List.length vertices)) (seq 0 n).

(** The triangle the walk pushes at its [k]-th step. *)
Definition fan_triangle (vertices : list Vector3) (edges : list Edge)
  (start k : nat) : Triangle :=
  mkTriangle (origin_vertex vertices edges start)
             (origin_vertex vertices edges (orbit edges start k))
             (origin_vertex vertices edges (orbit edges start (S k))).

Definition fan (vertices : list Vector3) (edges : list Edge)
  (start n : nat) : list Triangle :=
  map (fan_triangle vertices edges start) (seq 1 (n - 1)).

(** Whether the scan of the resolver gets a text for a slot. *)
Definition slot_label (parser : c_kv3_parser) (index : nat) : string :=
  get_value parser (collision_group_path index).

Definition is_default (label : string) : bool :=
  String.eqb (clean_collision_string label) "default".

(** [n] is the first slot for which the parser answers with no text. *)
Definition first_empty_slot (parser : c_kv3_parser) (n : nat) : Prop :=
  slot_label parser n = EmptyString
  /\ forall j, j < n -> slot_label parser j <> EmptyString.

(** ** The driver: one document (lines 127-311 of [main]) *)

(** Sequencing inside one shape: the second step runs on the value of the
    first when the first ended inside its arrays; otherwise the shape stops
    there, its state being [d]. *)
Definition and_then {A B : Type} (r : A * status) (d : B)
  (k : A -> B * status) : B * status :=
  match r with
  | (a, Done) => k a
  | (_, st) => (d, st)
  end.

Notation "'run' x '<-' e 'or' d ';' k" :=
  (and_then e d (fun x => k))
  (at level 10, x name, e at level 10, d at level 10, k at level 200,
   only parsing).

(** [atoi] as the C library has it, [(int) strtol(s, NULL, 10)]: white
    space, an optional sign, then decimal digits up to the first other
    character; [strtol] holds the value inside [long], and the conversion
    to [int] keeps its low 32 bits. *)
Definition isspace (c : ascii) : bool :=
  let n := nat_of_ascii c in
  (n =? 32) || ((9 <=? n) && (n <=? 13)).

Definition isdigit (c : ascii) : bool :=
  let n := nat_of_ascii c in
  (48 <=? n) && (n <=? 57).

Fixpoint skip_space (s : string) : string :=
  match s with
  | EmptyString => EmptyString
  | String c rest => if isspace c then skip_space rest else s
  end.

Fixpoint digits (s : string) (acc : Z) : Z :=
  match s with
  | EmptyString => acc
  | String c rest =>
      if isdigit c
      then digits rest (10 * acc + (Z.of_nat (nat_of_ascii c) - 48))%Z
      else acc
  end.

(** The number a text begins with, before any limit. *)
Definition leading_number (s : string) : Z :=
  match skip_space s with
  | EmptyString => 0%Z
  | String c rest =>
      if Ascii.eqb c "-" then (- digits rest 0)%Z
      else if Ascii.eqb c "+" then digits rest 0%Z
      else digits (String c rest) 0%Z
  end.

(** [atoi] of the C library the program is built with: it is
    [(int) strtol(s, NULL, 10)].  [strtol] answers with a [long] of 64
    bits and stays at [LONG_MAX] or [LONG_MIN] for a number outside it;
    the conversion to the 32-bit [int] keeps the low 32 bits. *)
Definition LONG_MAX : Z := (2 ^ 63 - 1)%Z.
Definition LONG_MIN : Z := (- 2 ^ 63)%Z.

Definition strtol (s : string) : Z :=
  Z.max LONG_MIN (Z.min LONG_MAX (leading_number s)).

(** Conversion of a [long] to [int]. *)
Definition to_int (v : Z) : Z :=
  let u := (v mod 2 ^ 32)%Z in
  if (u <? 2 ^ 31)%Z then u else (u - 2 ^ 32)%Z.

Definition atoi (s : string) : Z := to_int (strtol s).

(** [std::find(v.begin(), v.end(), value) != v.end()] on the accepted
    slots. *)
Definition found (collision_attribute_indices : list nat) (value : Z) : bool :=
  existsb (fun a => (Z.of_nat a =? value)%Z) collision_attribute_indices.

Definition string_empty (s : string) : bool :=
  match s with
  | EmptyString => true
  | String _ _ => false
  end.

(** Lines 166-168 and 267-269: the floats taken three at a time.  The
    [int] counter is a [nat]. *)
Fixpoint vertices_loop (fuel : nat) (vertex_processed : list float) (i : nat)
  (vertices : list Vector3) : list Vector3 * status :=
  if i <? List.length vertex_processed then
    match fuel with
    | 0 => (vertices, OutOfFuel)
    | S fuel' =>
        read a <- at_index vertex_processed i or (vertices, OutOfRange);
        read b <- at_index vertex_processed (i + 1) or (vertices, OutOfRange);
        read c <- at_index vertex_processed (i + 2) or (vertices, OutOfRange);
        vertices_loop fuel' vertex_processed (i + 3)
          (vertices ++ [mkVector3 a b c])
    end
  else (vertices, Done).

Definition group_vertices (vertex_processed : list float)
  : list Vector3 * status :=
  vertices_loop (List.length vertex_processed) vertex_processed 0 [].

(** Lines 190-192: the bytes taken four at a time. *)
Fixpoint edges_loop (fuel : nat) (edges_tmp : list byte) (i : nat)
  (edges_processed : list Edge) : list Edge * status :=
  if i <? List.length edges_tmp then
    match fuel with
    | 0 => (edges_processed, OutOfFuel)
    | S fuel' =>
        read a <- at_index edges_tmp i or (edges_processed, OutOfRange);
        read b <- at_index edges_tmp (i + 1) or (edges_processed, OutOfRange);
        read c <- at_index edges_tmp (i + 2) or (edges_processed, OutOfRange);
        read d <- at_index edges_tmp (i + 3) or (edges_processed, OutOfRange);
        edges_loop fuel' edges_tmp (i + 4) (edges_processed ++ [mkEdge a b c d])
    end
  else (edges_processed, Done).

Definition group_edges (edges_tmp : list byte) : list Edge * status :=
  edges_loop (List.length edges_tmp) edges_tmp 0 [].

Definition hull_key (index_str suffix : string) : string :=
  ("m_parts[0].m_rnShape.m_hulls[" ++ index_str ++ suffix)%string.

Definition mesh_key (index_str suffix : string) : string :=
  ("m_parts[0].m_rnShape.m_meshes[" ++ index_str ++ suffix)%string.

(** Lines 152-231: one hull with an accepted attribute.  The state is the
    triangle buffer with [count_hulls]; a [continue] leaves it as it is. *)
Definition hull_body (parser : c_kv3_parser) (index_str : string)
  (state : list Triangle * nat) : (list Triangle * nat) * status :=
  let vertex_positions_str :=
    get_value parser (hull_key index_str "].m_Hull.m_VertexPositions") in
  run vertex_processed <-
    (if negb (string_empty vertex_positions_str)
     then bytes_to_vec (Ty := float) vertex_positions_str
     else bytes_to_vec (Ty := float)
            (get_value parser (hull_key index_str "].m_Hull.m_Vertices")))
    or state;
  if empty vertex_processed then (state, Done)
  else
    run vertices <- group_vertices vertex_processed or state;
    let faces_str := get_value parser (hull_key index_str "].m_Hull.m_Faces") in
    let edges_str := get_value parser (hull_key index_str "].m_Hull.m_Edges") in
    if string_empty faces_str || string_empty edges_str then (state, Done)
    else
      run faces_processed <- bytes_to_vec (Ty := byte) faces_str or state;
      run edges_tmp <- bytes_to_vec (Ty := byte) edges_str or state;
      if empty faces_processed || empty edges_tmp then (state, Done)
      else
        run edges_processed <- group_edges edges_tmp or state;
        let '(triangles, st) :=
          hull_faces vertices edges_processed 100 faces_processed (fst state) in
        match st with
        | Done => ((triangles, S (snd state)), Done)
        | _ => ((triangles, snd state), st)
        end.

(** Lines 146-240: the scan of the hulls; one unit of [fuel] per hull
    queried. *)
Fixpoint hull_scan (fuel : nat) (parser : c_kv3_parser)
  (collision_attribute_indices : list nat) (index : nat)
  (state : list Triangle * nat) : (list Triangle * nat) * status :=
  match fuel with
  | 0 => (state, OutOfFuel)
  | S fuel' =>
      let index_str := to_string index in
      let collision_index_str :=
        get_value parser (hull_key index_str "].m_nCollisionAttributeIndex") in
      if negb (String.eqb collision_index_str EmptyString) then
        let collision_index := atoi collision_index_str in
        if found collision_attribute_indices collision_index then
          let '(state', st) := hull_body parser index_str state in
          match st with
          | Done =>
              hull_scan fuel' parser collision_attribute_indices (S index) state'
          | _ => (state', st)
          end
        else hull_scan fuel' parser collision_attribute_indices (S index) state
      else (state, Done)
  end.

(** Lines 250-287: one mesh with an accepted attribute; the state is the
    triangle buffer with [count_meshes]. *)
Definition mesh_body (parser : c_kv3_parser) (index_str : string)
  (state : list Triangle * nat) : (list Triangle * nat) * status :=
  let triangles_str := get_value parser (mesh_key index_str "].m_Mesh.m_Triangles") in
  let vertices_str := get_value parser (mesh_key index_str "].m_Mesh.m_Vertices") in
  if string_empty triangles_str || string_empty vertices_str then (state, Done)
  else
    run triangle_processed <- bytes_to_vec (Ty := Z) triangles_str or state;
    run vertex_processed <- bytes_to_vec (Ty := float) vertices_str or state;
    if empty triangle_processed || empty vertex_processed then (state, Done)
    else
      run vertices <- group_vertices vertex_processed or state;
      let '(triangles, st) :=
        triangulate_mesh vertices triangle_processed (fst state) in
      match st with
      | Done => ((triangles, S (snd state)), Done)
      | _ => ((triangles, snd state), st)
      end.

(** Lines 243-296: the scan of the meshes. *)
Fixpoint mesh_scan (fuel : nat) (parser : c_kv3_parser)
  (collision_attribute_indices : list nat) (index : nat)
  (state : list Triangle * nat) : (list Triangle * nat) * status :=
  match fuel with
  | 0 => (state, OutOfFuel)
  | S fuel' =>
      let index_str := to_string index in
      let collision_index_str :=
        get_value parser (mesh_key index_str "].m_nCollisionAttributeIndex") in
      if negb (String.eqb collision_index_str EmptyString) then
        let collision_index := atoi collision_index_str in
        if found collision_attribute_indices collision_index then
          let '(state', st) := mesh_body parser index_str state in
          match st with
          | Done =>
              mesh_scan fuel' parser collision_attribute_indices (S index) state'
          | _ => (state', st)
          end
        else mesh_scan fuel' parser collision_attribute_indices (S index) state
      else (state, Done)
  end.

(** What one document leaves behind: the triangle buffer, the two counts
    and the content of its file, if one is written. *)
Record report : Type := mkReport {
  triangles_found : list Triangle;
  count_hulls : nat;
  count_meshes : nat;
  tri_file : option (list byte)
}.

(** Lines 127-311 for a parsed document: the resolver, the scan of the
    hulls, the scan of the meshes, the write.  [fuel] is the allowance of
    each of the three scans. *)
Definition process_document (fuel : nat) (parser : c_kv3_parser)
  (is_open : bool) : report * status :=
  let '(collision_attribute_indices, st) :=
    get_collision_attribute_indices fuel parser in
  match st with
  | Done =>
      let '(hulls, st) :=
        hull_scan fuel parser collision_attribute_indices 0 ([], 0) in
      match st with
      | Done =>
          let '(meshes, st) :=
            mesh_scan fuel parser collision_attribute_indices 0 (fst hulls, 0) in
          match st with
          | Done =>
              (mkReport (fst meshes) (snd hulls) (snd meshes)
                        (write_tri is_open (fst meshes)), Done)
          | _ => (mkReport (fst meshes) (snd hulls) (snd meshes) None, st)
          end
      | _ => (mkReport (fst hulls) (snd hulls) 0 None, st)
      end
  | _ => (mkReport [] 0 0 None, st)
  end.

(** ** Sample data *)

Definition coord (b : byte) : float := mkFloat b x00 x00 x00.

Definition corner (a b : byte) : Vector3 := mkVector3 (coord a) (coord b) zero_float.

(** The unit square and its face loop 0 -> 1 -> 2 -> 3 -> 0. *)
Definition square_vertices : list Vector3 :=
  [corner x00 x00; corner x01 x00; corner x01 x01; corner x00 x01].

Definition square_edges : list Edge :=
  [mkEdge x01 x00 x00 x00; mkEdge x02 x00 x01 x00;
   mkEdge x03 x00 x02 x00; mkEdge x00 x00 x03 x00].

(** Two half-edges, the second being its own successor: a walk from the
    first never comes back to it. *)
Definition stuck_edges : list Edge :=
  [mkEdge x01 x00 x00 x00; mkEdge x01 x00 x01 x00].

(** A store of three slots: [Default], the empty text, [default]. *)
Definition store_with_empty_label : property_store :=
  fun path =>
    if String.eqb path (collision_group_path 0) then Some "Default"%string
    else if String.eqb path (collision_group_path 1) then Some EmptyString
    else if String.eqb path (collision_group_path 2) then Some "default"%string
    else None.

Definition newline : ascii := ascii_of_nat 10.

(** The text [default] between double quotes, a line feed behind it. *)
Definition quoted_default_line : string :=
  String quote ("default" ++ String quote (String newline EmptyString)).

(** A parser with the single slot [label]. *)
Definition one_slot_parser (label : string) : c_kv3_parser :=
  {| get_value := fun path =>
       if String.eqb path (collision_group_path 0) then label else EmptyString |}.

(** The index blob of a mesh of one triangle: three [int]s. *)
Definition one_triangle_blob : string :=
  "00 00 00 00 01 00 00 00 02 00 00 00 ".

(** ** Blob text and what it holds *)

(** The value of a hex digit, by the table. *)
Definition hex_value (c : ascii) : nat :=
  let n := nat_of_ascii c in
  if (48 <=? n) && (n <=? 57) then n - 48
  else if (65 <=? n) && (n <=? 70) then n - 55
  else if (97 <=? n) && (n <=? 102) then n - 87
  else 0.

Definition byte_of_nat (n : nat) : byte :=
  match Byte.of_nat n with
  | Some b => b
  | None => x00
  end.

(** Well-formed blob text: pairs of hex digits, each followed by a space
    or by the end of the text; further spaces may stand anywhere between
    the pairs. *)
Fixpoint blob_format (s : string) : bool :=
  match s with
  | EmptyString => true
  | String a rest =>
      if Ascii.eqb a " " then blob_format rest
      else
        match rest with
        | EmptyString => false
        | String b rest' =>
            is_hex_digit a && is_hex_digit b
            && match rest' with
               | EmptyString => true
               | String c _ => Ascii.eqb c " "
               end
            && blob_format rest'
        end
  end.

(** The bytes a blob text stands for. *)
Fixpoint blob_bytes (s : string) : list byte :=
  match s with
  | EmptyString => []
  | String a rest =>
      if Ascii.eqb a " " then blob_bytes rest
      else
        match rest with
        | EmptyString => []
        | String b rest' =>
            byte_of_nat (16 * hex_value a + hex_value b) :: blob_bytes rest'
        end
  end.

(** Writing bytes as blob text, in capitals or in small letters. *)
Definition hex_digit (upper : bool) (n : nat) : ascii :=
  if n <? 10 then ascii_of_nat (48 + n)
  else ascii_of_nat ((if upper then 55 else 87) + n).

Definition hex_pair (upper : bool) (b : byte) : string :=
  String (hex_digit upper (Byte.to_nat b / 16))
    (String (hex_digit upper (Byte.to_nat b mod 16)) EmptyString).

(** One space between the bytes, nothing behind the last. *)
Fixpoint blob_text (upper : bool) (bs : list byte) : string :=
  match bs with
  | [] => EmptyString
  | b :: rest =>
      match rest with
      | [] => hex_pair upper b
      | _ :: _ => (hex_pair upper b ++ " " ++ blob_text upper rest)%string
      end
  end.

(** One space behind every byte, the last included. *)
Fixpoint blob_text_spaced (upper : bool) (bs : list byte) : string :=
  match bs with
  | [] => EmptyString
  | b :: rest => (hex_pair upper b ++ " " ++ blob_text_spaced upper rest)%string
  end.

(** Room of the vector [bytes_to_vec] makes for a text, in bytes. *)
Definition capacity (sz : nat) (bytes : string) : nat :=
  (String.length bytes / 3 / sz + 1) * sz.

(** Floats three at a time, bytes four at a time. *)
Fixpoint vector3s (l : list float) : list Vector3 :=
  match l with
  | a :: b :: c :: rest => mkVector3 a b c :: vector3s rest
  | _ => []
  end.

Fixpoint edge_records (l : list byte) : list Edge :=
  match l with
  | a :: b :: c :: d :: rest => mkEdge a b c d :: edge_records rest
  | _ => []
  end.

(** A triangle whose three points are entries of [vertices]. *)
Definition from_vertices (vertices : list Vector3) (t : Triangle) : Prop :=
  In (p1 t) vertices /\ In (p2 t) vertices /\ In (p3 t) vertices.

(** A ring of [n] half-edges, each followed by the next and the last by the
    first, with origins going round four vertices. *)
Definition ring_edges (n : nat) : list Edge :=
  map (fun i => mkEdge (byte_of_nat (S i mod n)) x00 (byte_of_nat (i mod 4)) x00)
      (seq 0 n).

(** Whether the indices left behind the last whole triple make the mesh
    loop read behind the index array: one index that is a valid vertex
    index, or two that both are. *)
Fixpoint reads_past_indices (vertices : list Vector3) (indices : list Z)
  : bool :=
  match indices with
  | [] => false
  | [a] => index_in_bounds vertices a
  | [a; b] => index_in_bounds vertices a && index_in_bounds vertices b
  | _ :: _ :: _ :: rest => reads_past_indices vertices rest
  end.

(** The attribute index text of hull and of mesh [j], and the first index
    of a list for which the parser answers with no text. *)
Definition hull_index_text (parser : c_kv3_parser) (j : nat) : string :=
  get_value parser (hull_key (to_string j) "].m_nCollisionAttributeIndex").

Definition mesh_index_text (parser : c_kv3_parser) (j : nat) : string :=
  get_value parser (mesh_key (to_string j) "].m_nCollisionAttributeIndex").

Definition first_empty (text : nat -> string) (n : nat) : Prop :=
  text n = EmptyString /\ forall j, j < n -> text j <> EmptyString.

(** A parsed document given by its entries; a path that is not among them
    is answered with the empty text. *)
Definition document (entries : list (string * string)) : c_kv3_parser :=
  {| get_value := fun path =>
       match find (fun entry => String.eqb (fst entry) path) entries with
       | Some entry => snd entry
       | None => EmptyString
       end |}.

(** The unit square as bytes: four vertices of three floats, 1.0 being
    00 00 80 3F, and the four half-edge records of [square_edges]. *)
Definition square_vertex_bytes : list byte :=
  [x00; x00; x00; x00;  x00; x00; x00; x00;  x00; x00; x00; x00;
   x00; x00; x80; x3f;  x00; x00; x00; x00;  x00; x00; x00; x00;
   x00; x00; x80; x3f;  x00; x00; x80; x3f;  x00; x00; x00; x00;
   x00; x00; x00; x00;  x00; x00; x80; x3f;  x00; x00; x00; x00].

Definition square_edge_bytes : list byte :=
  [x01; x00; x00; x00;  x02; x00; x01; x00;
   x03; x00; x02; x00;  x00; x00; x03; x00].

Definition one_triangle_bytes : list byte :=
  [x00; x00; x00; x00;  x01; x00; x00; x00;  x02; x00; x00; x00].

Definition zero_text : string := String "0" EmptyString.

(** A document with one attribute slot, one hull (the square) and one mesh
    (one triangle over the square), its blobs written by [text]. *)
Definition square_document (label : string)
  (text : bool -> list byte -> string) : c_kv3_parser :=
  document
    [(collision_group_path 0, label);
     (hull_key zero_text "].m_nCollisionAttributeIndex", zero_text);
     (hull_key zero_text "].m_Hull.m_VertexPositions", text true square_vertex_bytes);
     (hull_key zero_text "].m_Hull.m_Faces", text true [x00]);
     (hull_key zero_text "].m_Hull.m_Edges", text false square_edge_bytes);
     (mesh_key zero_text "].m_nCollisionAttributeIndex", zero_text);
     (mesh_key zero_text "].m_Mesh.m_Triangles", text true one_triangle_bytes);
     (mesh_key zero_text "].m_Mesh.m_Vertices", text false square_vertex_bytes)].

(** The document of the square hull alone. *)
Definition square_hull_document (label : string) : c_kv3_parser :=
  document
    [(collision_group_path 0, label);
     (hull_key zero_text "].m_nCollisionAttributeIndex", zero_text);
     (hull_key zero_text "].m_Hull.m_Vertices", blob_text false square_vertex_bytes);
     (hull_key zero_text "].m_Hull.m_Faces", blob_text true [x00]);
     (hull_key zero_text "].m_Hull.m_Edges", blob_text true square_edge_bytes)].

(** ** Labels and file bytes, in the words of the claims *)

Fixpoint no_quote (s : string) : bool :=
  match s with
  | EmptyString => true
  | String c rest => negb (Ascii.eqb c quote) && no_quote rest
  end.

(** [c] is the small letter [small] or its capital. *)
Definition letter_is (small c : ascii) : bool :=
  Ascii.eqb c small || Ascii.eqb c (ascii_of_nat (nat_of_ascii small - 32)).

(** [s] is [word], a word of small letters, in any mix of capitals and
    small letters. *)
Fixpoint spells (word s : string) : bool :=
  match word, s with
  | EmptyString, EmptyString => true
  | String w word', String c s' => letter_is w c && spells word' s'
  | _, _ => false
  end.

(** A label that says [default]: the word in any mix of cases, either as
    the whole label or between a leading double quote and the last double
    quote of the label. *)
Definition label_says_default (label : string) : Prop :=
  spells "default" label = true
  \/ exists body tail,
       label = String quote (body ++ String quote tail)
       /\ no_quote tail = true
       /\ spells "default" body = true.

(** The unsigned value of four bytes, the first the least significant. *)
Definition le32 (l : list byte) : Z :=
  (byte_val (nth 0 l x00)
   + 256 * byte_val (nth 1 l x00)
   + 65536 * byte_val (nth 2 l x00)
   + 16777216 * byte_val (nth 3 l x00))%Z.

(** The 32-bit pattern of a [float]: on the little-endian hosts the program
    is written for, the first byte of its storage holds the lowest bits. *)
Definition float_bits (f : float) : Z := le32 [fb0 f; fb1 f; fb2 f; fb3 f].

(** The IEEE-754 single-precision number of a 32-bit pattern: one sign
    bit, eight exponent bits, 23 fraction bits. *)
Definition binary32 (w : Z) : spec_float :=
  let sign := (2 ^ 31 <=? w)%Z in
  let e := ((w / 2 ^ 23) mod 256)%Z in
  let m := (w mod 2 ^ 23)%Z in
  if (e =? 0)%Z then
    if (m =? 0)%Z then S754_zero sign
    else S754_finite sign (Z.to_pos m) (-149)
  else if (e =? 255)%Z then
    if (m =? 0)%Z then S754_infinity sign else S754_nan
  else S754_finite sign (Z.to_pos (m + 2 ^ 23)) (e - 150).

Definition float_value (f : float) : spec_float := binary32 (float_bits f).

(** Point [p] of a triangle and component [c] of a vector, counted from
    0. *)
Definition point (p : nat) (t : Triangle) : Vector3 :=
  match p with
  | 0 => p1 t
  | 1 => p2 t
  | _ => p3 t
  end.

Definition component (c : nat) (v : Vector3) : float :=
  match c with
  | 0 => x v
  | 1 => y v
  | _ => z v
  end.

(** The [k]-th group of four bytes of a file. *)
Definition file_float (bytes : list byte) (k : nat) : list byte :=
  firstn 4 (skipn (4 * k) bytes).

(** A triangle whose 36 bytes all differ. *)
Definition counting_float (b : byte) : float :=
  mkFloat b (byte_of_nat (Byte.to_nat b + 1)) (byte_of_nat (Byte.to_nat b + 2))
          (byte_of_nat (Byte.to_nat b + 3)).

Definition counting_vector (b : byte) : Vector3 :=
  mkVector3 (counting_float b) (counting_float (byte_of_nat (Byte.to_nat b + 4)))
            (counting_float (byte_of_nat (Byte.to_nat b + 8))).

Definition counting_triangle : Triangle :=
  mkTriangle (counting_vector x00) (counting_vector x0c) (counting_vector x18).

(** 1.0 as a [float]: 00 00 80 3F. *)
Definition one_float : float := mkFloat x00 x00 x80 x3f.

(** * Properties *)

(** ** The decoder *)

Lemma store_length (i : nat) (b : byte) (buf : list byte) :
  i < List.length buf -> List.length (store i b buf) = List.length buf.
Proof.
  intros Hi. unfold store.
  rewrite length_app, length_firstn. cbn [List.length].
  rewrite length_skipn. lia.
Qed.

(** The copy loop never changes the size of the storage it writes to. *)
Lemma decode_loop_length (n : nat) :
  forall (p1 : string) (p2 : nat) (buf : list byte),
    String.length p1 <= n ->
    List.length (fst (decode_loop p1 p2 buf)) = List.length buf.
Proof.
  induction n as [|n IH]; intros p1 p2 buf Hn.
  - destruct p1; [reflexivity | cbn in Hn; lia].
  - destruct p1 as [|c rest]; [reflexivity|].
    cbn [decode_loop]. cbn in Hn.
    destruct (Ascii.eqb c zero); [reflexivity|].
    destruct (Ascii.eqb c " "); [apply IH; lia|].
    destruct (Nat.leb_spec (List.length buf) p2) as [Hle|Hlt]; [reflexivity|].
    destruct rest as [|d rest'].
    + cbn [fst]. apply store_length, Hlt.
    + rewrite IH by (cbn in Hn; lia). apply store_length, Hlt.
Qed.

Lemma chunks_length (sz k : nat) :
  forall buf, List.length (chunks sz k buf) = k.
Proof.
  induction k as [|k IH]; intros buf; cbn; [reflexivity | now rewrite IH].
Qed.

Lemma elements_length {Ty : Type} `{Element Ty} (buf : list byte) :
  List.length (elements (Ty := Ty) buf) = List.length buf / sizeof.
Proof.
  unfold elements. now rewrite length_map, chunks_length.
Qed.

Lemma bytes_to_vec_length {Ty : Type} `{Element Ty} (bytes : string) :
  bytes <> EmptyString ->
  List.length (fst (bytes_to_vec (Ty := Ty) bytes))
  = String.length bytes / 3 / sizeof + 1.
Proof.
  intros Hne. unfold bytes_to_vec.
  destruct bytes as [|c rest]; [congruence|].
  set (s := String c rest).
  set (vec := repeat x00 ((String.length s / 3 / sizeof + 1) * sizeof)).
  pose proof (decode_loop_length (String.length s) s 0 vec (le_n _)) as Hlen.
  destruct (decode_loop s 0 vec) as [buf st]. cbn [fst] in *.
  rewrite elements_length, Hlen. unfold vec. rewrite repeat_length.
  apply Nat.div_mul. pose proof sizeof_pos. lia.
Qed.

Lemma is_hex_digit_not_end (c : ascii) :
  is_hex_digit c = true -> Ascii.eqb c zero = false /\ Ascii.eqb c " " = false.
Proof.
  destruct c as [[] [] [] [] [] [] [] []]; cbv; intros Hd;
    try discriminate Hd; split; reflexivity.
Qed.

(** On a text of hex pairs the copy loop writes one byte for each three
    characters and stays inside the string and, given room, the storage. *)
Lemma decode_loop_hex_pairs (n : nat) :
  forall (p1 : string) (p2 : nat) (buf : list byte),
    String.length p1 <= n ->
    hex_pair_text p1 = true ->
    p2 + String.length p1 / 3 <= List.length buf ->
    snd (decode_loop p1 p2 buf) = Done.
Proof.
  induction n as [|n IH]; intros p1 p2 buf Hn Hhex Hroom.
  - destruct p1; [reflexivity | cbn in Hn; lia].
  - destruct p1 as [|a [|b [|sp rest]]]; try discriminate Hhex; [reflexivity|].
    cbn [hex_pair_text] in Hhex.
    apply andb_prop in Hhex as [Hhex Hrest].
    apply andb_prop in Hhex as [Hhex Hsp].
    apply andb_prop in Hhex as [Ha Hb].
    apply is_hex_digit_not_end in Ha as [Ha0 Hasp].
    assert (Hlen : String.length (String a (String b (String sp rest)))
                   = 3 + String.length rest) by reflexivity.
    assert (Hdiv : (3 + String.length rest) / 3 = 1 + String.length rest / 3).
    { replace (3 + String.length rest) with (1 * 3 + String.length rest) by lia.
      rewrite Nat.div_add_l by lia. reflexivity. }
    rewrite Hlen, Hdiv in Hroom. rewrite Hlen in Hn.
    cbn [decode_loop]. rewrite Ha0, Hasp.
    destruct (Nat.leb_spec (List.length buf) p2) as [Hle|Hlt]; [lia|].
    rewrite Hsp.
    destruct (Ascii.eqb sp zero) eqn:Hz.
    { apply Ascii.eqb_eq in Hsp. subst sp. discriminate Hz. }
    apply IH; [lia | exact Hrest |].
    rewrite store_length by exact Hlt. lia.
Qed.

Lemma bytes_to_vec_hex_pairs {Ty : Type} `{Element Ty} (bytes : string) :
  hex_pair_text bytes = true -> snd (bytes_to_vec (Ty := Ty) bytes) = Done.
Proof.
  intros Hhex. unfold bytes_to_vec.
  destruct bytes as [|c rest]; [reflexivity|].
  set (s := String c rest) in *.
  set (vec := repeat x00 ((String.length s / 3 / sizeof + 1) * sizeof)).
  assert (Hroom : 0 + String.length s / 3 <= List.length vec).
  { unfold vec. rewrite repeat_length. pose proof sizeof_pos as Hpos.
    pose proof (Nat.div_mod_eq (String.length s / 3) sizeof) as Hdm.
    pose proof (Nat.mod_upper_bound (String.length s / 3) sizeof) as Hub.
    nia. }
  pose proof (decode_loop_hex_pairs (String.length s) s 0 vec (le_n _) Hhex Hroom) as Hst.
  destruct (decode_loop s 0 vec) as [buf st]. exact Hst.
Qed.

(** ** The hull walk *)

Lemma at_index_in_range {A : Type} (v : list A) (i : nat) :
  i < List.length v -> exists a, at_index v i = Some a.
Proof.
  intros Hi. unfold at_index.
  destruct (nth_error v i) as [a|] eqn:Ha; [now exists a|].
  apply nth_error_None in Ha. lia.
Qed.

Ltac in_range_read H :=
  let a := fresh "r" in
  let Ha := fresh "Hr" in
  destruct (at_index_in_range _ _ H) as [a Ha]; rewrite Ha.

Section HullFacts.
Variable vertices : list Vector3.
Variable edges : list Edge.

(** With three half-edges inside [edges], the push reads inside both
    arrays and adds at most one triangle. *)
Lemma push_fan_triangle_in_range (start_edge edge nextEdge : nat)
  (triangles : list Triangle) :
  start_edge < List.length edges ->
  edge < List.length edges ->
  nextEdge < List.length edges ->
  exists emitted,
    push_fan_triangle vertices edges start_edge edge nextEdge triangles
    = (triangles ++ emitted, Done).
Proof.
  intros Hs He Hn. unfold push_fan_triangle.
  in_range_read Hs.
  destruct (Nat.ltb_spec (u8 (origin r)) (List.length vertices)) as [H1|H1];
    [|exists []; now rewrite app_nil_r].
  in_range_read He.
  destruct (Nat.ltb_spec (u8 (origin r0)) (List.length vertices)) as [H2|H2];
    [|exists []; now rewrite app_nil_r].
  in_range_read Hn.
  destruct (Nat.ltb_spec (u8 (origin r1)) (List.length vertices)) as [H3|H3];
    [|exists []; now rewrite app_nil_r].
  in_range_read H1. in_range_read H2. in_range_read H3.
  eexists. reflexivity.
Qed.

(** A walk whose allowance covers what the step counter leaves ends inside
    the arrays and inside its allowance. *)
Lemma face_walk_in_range (fuel : nat) :
  forall (start_edge edge face_vertex_count : nat) (triangles : list Triangle),
    start_edge < List.length edges ->
    100 <= fuel + face_vertex_count ->
    exists emitted,
      face_walk vertices edges fuel start_edge edge face_vertex_count triangles
      = (triangles ++ emitted, Done).
Proof.
  induction fuel as [|fuel IH]; intros start_edge edge count triangles Hs Hfuel.
  - cbn [face_walk].
    destruct (Nat.ltb_spec count 100) as [Hc|Hc]; [lia|].
    rewrite andb_false_r. exists []. now rewrite app_nil_r.
  - cbn [face_walk].
    destruct (negb (edge =? start_edge) && (count <? 100));
      [|exists []; now rewrite app_nil_r].
    destruct (Nat.leb_spec (List.length edges) edge) as [He|He];
      [exists []; now rewrite app_nil_r|].
    in_range_read He.
    destruct (Nat.leb_spec (List.length edges) (u8 (next r))) as [Hn|Hn];
      [exists []; now rewrite app_nil_r|].
    destruct (push_fan_triangle_in_range start_edge edge (u8 (next r))
                triangles Hs He Hn) as [em1 Hpush].
    rewrite Hpush.
    destruct (IH start_edge (u8 (next r)) (S count) (triangles ++ em1) Hs
                ltac:(lia)) as [em2 Hwalk].
    rewrite Hwalk. exists (em1 ++ em2). now rewrite app_assoc.
Qed.

Lemma hull_faces_in_range (faces : list byte) :
  forall triangles : list Triangle,
    exists emitted,
      hull_faces vertices edges 100 faces triangles = (triangles ++ emitted, Done).
Proof.
  induction faces as [|start_edge rest IH]; intros triangles.
  - exists []. cbn. now rewrite app_nil_r.
  - cbn [hull_faces].
    destruct (Nat.leb_spec (List.length edges) (u8 start_edge)) as [Hs|Hs];
      [apply IH|].
    in_range_read Hs.
    destruct (face_walk_in_range 100 (u8 start_edge) (u8 (next r)) 0 triangles
                Hs ltac:(lia)) as [em1 Hwalk].
    rewrite Hwalk.
    destruct (IH (triangles ++ em1)) as [em2 Hrest].
    rewrite Hrest. exists (em1 ++ em2). now rewrite app_assoc.
Qed.

(** More allowance than a walk needs changes nothing. *)
Lemma face_walk_more_fuel (fuel : nat) :
  forall (extra start_edge edge face_vertex_count : nat)
         (triangles : list Triangle),
    snd (face_walk vertices edges fuel start_edge edge face_vertex_count triangles)
    <> OutOfFuel ->
    face_walk vertices edges (fuel + extra) start_edge edge face_vertex_count triangles
    = face_walk vertices edges fuel start_edge edge face_vertex_count triangles.
Proof.
  induction fuel as [|fuel IH]; intros extra start_edge edge count triangles Hnot.
  - cbn [Nat.add]. destruct extra as [|extra]; [reflexivity|].
    cbn [face_walk] in *.
    destruct (negb (edge =? start_edge) && (count <? 100)); [|reflexivity].
    cbn in Hnot. congruence.
  - cbn [face_walk Nat.add] in *.
    destruct (negb (edge =? start_edge) && (count <? 100)); [|reflexivity].
    destruct (List.length edges <=? edge); [reflexivity|].
    destruct (at_index edges edge) as [r|]; [|reflexivity].
    destruct (List.length edges <=? u8 (next r)); [reflexivity|].
    destruct (push_fan_triangle vertices edges start_edge edge (u8 (next r)) triangles)
      as [triangles' st].
    destruct st; try reflexivity.
    apply IH, Hnot.
Qed.

(** The triangulation is the same under any allowance of 100 or more. *)
Lemma hull_faces_more_fuel (extra : nat) (faces : list byte) :
  forall triangles : list Triangle,
    hull_faces vertices edges (100 + extra) faces triangles
    = hull_faces vertices edges 100 faces triangles.
Proof.
  induction faces as [|start_edge rest IH]; intros triangles; [reflexivity|].
  cbn [hull_faces].
  destruct (Nat.leb_spec (List.length edges) (u8 start_edge)) as [Hs|Hs];
    [apply IH|].
  in_range_read Hs.
  destruct (face_walk_in_range 100 (u8 start_edge) (u8 (next r)) 0 triangles
              Hs ltac:(lia)) as [em Hwalk].
  rewrite face_walk_more_fuel by (rewrite Hwalk; discriminate).
  rewrite Hwalk. apply IH.
Qed.
End HullFacts.

Section FaceLoop.
Variable vertices : list Vector3.
Variable edges : list Edge.
Variable start n : nat.
Hypothesis Hloop : face_loop vertices edges start n = true.

Lemma face_loop_closed : orbit edges start n = start.
Proof.
  unfold face_loop in Hloop.
  apply andb_prop in Hloop as [H _]. apply andb_prop in H as [H _].
  now apply Nat.eqb_eq.
Qed.

Lemma face_loop_first_return (k : nat) :
  1 <= k < n -> orbit edges start k <> start.
Proof.
  intros Hk. unfold face_loop in Hloop.
  apply andb_prop in Hloop as [H _]. apply andb_prop in H as [_ H].
  rewrite forallb_forall in H.
  specialize (H k ltac:(apply in_seq; lia)).
  apply negb_true_iff in H. now apply Nat.eqb_neq.
Qed.

Lemma face_loop_indices (k : nat) :
  k < n ->
  orbit edges start k < List.length edges
  /\ origin_of edges (orbit edges start k) < List.length vertices.
Proof.
  intros Hk. unfold face_loop in Hloop.
  apply andb_prop in Hloop as [_ H].
  rewrite forallb_forall in H.
  specialize (H k ltac:(apply in_seq; lia)).
  apply andb_prop in H as [H1 H2].
  split; now apply Nat.ltb_lt.
Qed.

Lemma face_loop_indices_closed (k : nat) :
  0 < n -> k <= n ->
  orbit edges start k < List.length edges
  /\ origin_of edges (orbit edges start k) < List.length vertices.
Proof.
  intros Hn Hk. destruct (Nat.eq_dec k n) as [->|Hne].
  - rewrite face_loop_closed. apply (face_loop_indices 0 Hn).
  - apply face_loop_indices. lia.
Qed.
End FaceLoop.

Section FanFacts.
Variable vertices : list Vector3.
Variable edges : list Edge.

Lemma origin_vertex_read (e : nat) :
  e < List.length edges ->
  origin_of edges e < List.length vertices ->
  exists r, at_index edges e = Some r
            /\ (u8 (origin r) <? List.length vertices) = true
            /\ at_index vertices (u8 (origin r)) = Some (origin_vertex vertices edges e).
Proof.
  intros He Ho. destruct (at_index_in_range _ _ He) as [r Hr].
  exists r. unfold origin_vertex, origin_of, at_index in *. rewrite Hr in *.
  split; [reflexivity|]. split; [now apply Nat.ltb_lt|].
  now apply nth_error_nth'.
Qed.

(** With all three origins inside [vertices] the push adds the triangle of
    the three origin vertices. *)
Lemma push_fan_triangle_emits (start_edge edge nextEdge : nat)
  (triangles : list Triangle) :
  start_edge < List.length edges ->
  origin_of edges start_edge < List.length vertices ->
  edge < List.length edges ->
  origin_of edges edge < List.length vertices ->
  nextEdge < List.length edges ->
  origin_of edges nextEdge < List.length vertices ->
  push_fan_triangle vertices edges start_edge edge nextEdge triangles
  = (triangles ++ [mkTriangle (origin_vertex vertices edges start_edge)
                              (origin_vertex vertices edges edge)
                              (origin_vertex vertices edges nextEdge)], Done).
Proof.
  intros Hs Hso He Heo Hn Hno. unfold push_fan_triangle.
  destruct (origin_vertex_read _ Hs Hso) as [rs [-> [-> Hvs]]].
  destruct (origin_vertex_read _ He Heo) as [re [-> [-> Hve]]].
  destruct (origin_vertex_read _ Hn Hno) as [rn [-> [-> Hvn]]].
  now rewrite Hvs, Hve, Hvn.
Qed.

Lemma orbit_step (start k : nat) :
  orbit edges start (S k) = next_of edges (orbit edges start k).
Proof. reflexivity. Qed.

(** The walk along a closed face loop, from its [j]-th half-edge on. *)
Lemma face_walk_closed_loop (start n : nat) :
  face_loop vertices edges start n = true ->
  n <= 101 ->
  forall (d j fuel : nat) (triangles : list Triangle),
    j + d = n -> 1 <= j -> d <= fuel ->
    face_walk vertices edges fuel start (orbit edges start j) (j - 1) triangles
    = (triangles ++ map (fan_triangle vertices edges start) (seq j d), Done).
Proof.
  intros Hloop Hn.
  induction d as [|d IH]; intros j fuel triangles Hjd Hj Hfuel.
  - replace j with n by lia. rewrite (face_loop_closed _ _ _ _ Hloop).
    cbn [seq map]. rewrite app_nil_r.
    destruct fuel; cbn [face_walk]; now rewrite Nat.eqb_refl.
  - destruct fuel as [|fuel]; [lia|].
    cbn [face_walk].
    pose proof (face_loop_first_return _ _ _ _ Hloop j ltac:(lia)) as Hne.
    apply Nat.eqb_neq in Hne. rewrite Hne.
    destruct (Nat.ltb_spec (j - 1) 100) as [_|Hc]; [|lia].
    cbn [negb andb].
    destruct (face_loop_indices _ _ _ _ Hloop j ltac:(lia)) as [Hje Hjo].
    destruct (face_loop_indices _ _ _ _ Hloop 0 ltac:(lia)) as [Hse Hso].
    change (orbit edges start 0) with start in Hse, Hso.
    destruct (face_loop_indices_closed _ _ _ _ Hloop (S j) ltac:(lia) ltac:(lia))
      as [Hne' Hno'].
    destruct (Nat.leb_spec (List.length edges) (orbit edges start j)) as [Hbad|_];
      [lia|].
    destruct (at_index_in_range _ _ Hje) as [r Hr]. rewrite Hr.
    assert (Hnext : u8 (next r) = orbit edges start (S j)).
    { rewrite orbit_step. unfold next_of. unfold at_index in Hr. now rewrite Hr. }
    rewrite Hnext.
    destruct (Nat.leb_spec (List.length edges) (orbit edges start (S j)))
      as [Hbad|_]; [lia|].
    rewrite (push_fan_triangle_emits _ _ _ triangles Hse Hso Hje Hjo Hne' Hno').
    replace (S (j - 1)) with (S j - 1) by lia.
    rewrite (IH (S j) fuel _ ltac:(lia) ltac:(lia) ltac:(lia)).
    cbn [seq map]. rewrite <- app_assoc. reflexivity.
Qed.

(** The triangulation of a single face that is a closed loop. *)
Lemma triangulate_hull_closed_loop (start_edge : byte) (n : nat)
  (triangles : list Triangle) :
  1 <= n <= 101 ->
  face_loop vertices edges (u8 start_edge) n = true ->
  triangulate_hull vertices [start_edge] edges triangles
  = (triangles ++ fan vertices edges (u8 start_edge) n, Done).
Proof.
  intros Hn Hloop.
  destruct (face_loop_indices _ _ _ _ Hloop 0 ltac:(lia)) as [Hse _].
  change (orbit edges (u8 start_edge) 0) with (u8 start_edge) in Hse.
  unfold triangulate_hull. cbn [hull_faces].
  destruct (Nat.leb_spec (List.length edges) (u8 start_edge)) as [Hbad|_];
    [lia|].
  destruct (at_index_in_range _ _ Hse) as [r Hr]. rewrite Hr.
  assert (Hnext : u8 (next r) = orbit edges (u8 start_edge) 1).
  { rewrite orbit_step. unfold next_of. unfold at_index in Hr.
    change (orbit edges (u8 start_edge) 0) with (u8 start_edge).
    now rewrite Hr. }
  rewrite Hnext.
  pose proof (face_walk_closed_loop (u8 start_edge) n Hloop
                ltac:(lia) (n - 1) 1 100 triangles ltac:(lia) ltac:(lia)
                ltac:(lia)) as Hwalk.
  change (1 - 1) with 0 in Hwalk. rewrite Hwalk. reflexivity.
Qed.

(** No square face gives two triangles: the walk pushes three. *)
Lemma square_face_fan_length (start_edge : byte) (triangles : list Triangle) :
  face_loop vertices edges (u8 start_edge) 4 = true ->
  List.length (fst (triangulate_hull vertices [start_edge] edges triangles))
  = List.length triangles + 3.
Proof.
  intros Hloop.
  rewrite (triangulate_hull_closed_loop start_edge 4 triangles ltac:(lia) Hloop).
  cbn [fst]. rewrite length_app. reflexivity.
Qed.
End FanFacts.

(** ** The mesh loop *)

Section MeshFacts.
Variable vertices : list Vector3.
Hypothesis Hsize : (Z.of_nat (List.length vertices) < 2 ^ 63)%Z.

(** For an [int], the unsigned comparison with the size is the two-sided
    bounds test: a negative value converts to a [size_t] above every size. *)
Lemma below_size_int (v : Z) :
  is_int v -> below_size vertices v = index_in_bounds vertices v.
Proof.
  unfold is_int, below_size, index_in_bounds, to_size_t. intros Hv.
  destruct (Z.leb_spec 0 v) as [Hpos|Hneg]; cbn [andb].
  - rewrite Z.mod_small by lia. reflexivity.
  - replace (v mod 2 ^ 64)%Z with (v + 2 ^ 64)%Z.
    + apply Z.ltb_ge. lia.
    + rewrite <- (Z_mod_plus_full v 1 (2 ^ 64)).
      rewrite Z.mod_small by lia. lia.
Qed.

Lemma vertex_at_in_bounds (v : Z) :
  index_in_bounds vertices v = true ->
  vertex_at vertices v = Some (vertex vertices v).
Proof.
  unfold index_in_bounds, vertex_at, vertex, to_size_t, at_index. intros Hv.
  apply andb_prop in Hv as [H0 H1].
  apply Z.leb_le in H0. apply Z.ltb_lt in H1.
  rewrite Z.mod_small by lia.
  apply nth_error_nth'. lia.
Qed.

Lemma at_index_app {A : Type} (pre rest : list A) (k : nat) :
  at_index (pre ++ rest) (List.length pre + k) = nth_error rest k.
Proof.
  unfold at_index. rewrite nth_error_app2 by lia.
  f_equal. lia.
Qed.

(** One pass of the loop body over a complete triple. *)
Lemma push_mesh_triangle_triple (pre rest : list Z) (a b c : Z)
  (triangles : list Triangle) :
  is_int a -> is_int b -> is_int c ->
  push_mesh_triangle vertices (pre ++ a :: b :: c :: rest) (List.length pre) triangles
  = (triangles ++ triple_triangles vertices a b c, Done).
Proof.
  intros Ha Hb Hc. unfold push_mesh_triangle, triple_triangles.
  rewrite <- (Nat.add_0_r (List.length pre)) at 1.
  rewrite !at_index_app. cbn [nth_error].
  rewrite !below_size_int by assumption.
  destruct (index_in_bounds vertices a) eqn:Ea; cbn [andb];
    [|now rewrite app_nil_r].
  destruct (index_in_bounds vertices b) eqn:Eb; cbn [andb];
    [|now rewrite app_nil_r].
  destruct (index_in_bounds vertices c) eqn:Ec; cbn [andb];
    [|now rewrite app_nil_r].
  now rewrite !vertex_at_in_bounds by assumption.
Qed.

Lemma mesh_loop_past_end (indices : list Z) (fuel i : nat)
  (triangles : list Triangle) :
  List.length indices <= i ->
  mesh_loop vertices indices fuel i triangles = (triangles, Done).
Proof.
  intros Hi. destruct fuel; cbn [mesh_loop];
    destruct (Nat.ltb_spec i (List.length indices)); try lia; reflexivity.
Qed.

(** The loop over the indices behind [pre]: the triangles of the complete
    triples are pushed, in order, and nothing else; when the indices come
    in threes the loop ends inside the array. *)
Lemma mesh_loop_triples (n : nat) :
  forall (rest pre : list Z) (fuel : nat) (triangles : list Triangle),
    List.length rest <= n ->
    List.length rest <= fuel ->
    Forall is_int rest ->
    fst (mesh_loop vertices (pre ++ rest) fuel (List.length pre) triangles)
    = triangles ++ mesh_triangles vertices rest
    /\ (List.length rest mod 3 = 0 ->
        snd (mesh_loop vertices (pre ++ rest) fuel (List.length pre) triangles)
        = Done).
Proof.
  induction n as [|n IH]; intros rest pre fuel triangles Hn Hfuel Hint.
  - destruct rest; [|cbn in Hn; lia].
    rewrite mesh_loop_past_end by (rewrite length_app; cbn; lia).
    cbn. now rewrite app_nil_r.
  - destruct rest as [|a [|b [|c rest]]].
    + rewrite mesh_loop_past_end by (rewrite length_app; cbn; lia).
      cbn. now rewrite app_nil_r.
    + destruct fuel as [|fuel]; [cbn in Hfuel; lia|].
      cbn [mesh_loop mesh_triangles]. rewrite app_nil_r.
      destruct (Nat.ltb_spec (List.length pre) (List.length (pre ++ [a])))
        as [_|Hbad]; [|rewrite length_app in Hbad; cbn in Hbad; lia].
      unfold push_mesh_triangle.
      rewrite <- (Nat.add_0_r (List.length pre)) at 1.
      rewrite !at_index_app. cbn [nth_error].
      split; [|cbn; discriminate].
      destruct (below_size vertices a); [reflexivity|].
      rewrite mesh_loop_past_end by (rewrite length_app; cbn; lia). reflexivity.
    + destruct fuel as [|fuel]; [cbn in Hfuel; lia|].
      cbn [mesh_loop mesh_triangles]. rewrite app_nil_r.
      destruct (Nat.ltb_spec (List.length pre) (List.length (pre ++ [a; b])))
        as [_|Hbad]; [|rewrite length_app in Hbad; cbn in Hbad; lia].
      unfold push_mesh_triangle.
      rewrite <- (Nat.add_0_r (List.length pre)) at 1.
      rewrite !at_index_app. cbn [nth_error].
      split; [|cbn; discriminate].
      destruct (below_size vertices a);
        [|rewrite mesh_loop_past_end by (rewrite length_app; cbn; lia);
          reflexivity].
      destruct (below_size vertices b); [reflexivity|].
      rewrite mesh_loop_past_end by (rewrite length_app; cbn; lia). reflexivity.
    + destruct fuel as [|fuel]; [cbn in Hfuel; lia|].
      cbn [mesh_loop mesh_triangles].
      destruct (Nat.ltb_spec (List.length pre)
                  (List.length (pre ++ a :: b :: c :: rest)))
        as [_|Hbad]; [|rewrite length_app in Hbad; cbn in Hbad; lia].
      inversion Hint as [|? ? Ha Hint1]; subst.
      inversion Hint1 as [|? ? Hb Hint2]; subst.
      inversion Hint2 as [|? ? Hc Hint3]; subst.
      rewrite push_mesh_triangle_triple by assumption.
      replace (pre ++ a :: b :: c :: rest) with ((pre ++ [a; b; c]) ++ rest)
        by (now rewrite <- app_assoc).
      replace (List.length pre + 3) with (List.length (pre ++ [a; b; c]))
        by (rewrite length_app; reflexivity).
      cbn [List.length] in Hn, Hfuel.
      destruct (IH rest (pre ++ [a; b; c]) fuel
                  (triangles ++ triple_triangles vertices a b c)
                  ltac:(lia) ltac:(lia) Hint3) as [Hfst Hsnd].
      split.
      * rewrite Hfst. now rewrite app_assoc.
      * intros Hmod. apply Hsnd.
        cbn [List.length] in Hmod.
        replace (S (S (S (List.length rest)))) with (List.length rest + 1 * 3)
          in Hmod by lia.
        now rewrite Nat.Div0.mod_add in Hmod.
Qed.
End MeshFacts.

(** ** The resolver *)

Lemma substring_prefix (body rest : string) :
  substring 0 (String.length body) (body ++ rest) = body.
Proof.
  induction body as [|c body IH]; cbn.
  - destruct rest; reflexivity.
  - now rewrite IH.
Qed.

Lemma find_last_of_closing (body tail : string) (ch : ascii) :
  find_last_of tail ch = None ->
  find_last_of (body ++ String ch tail) ch = Some (String.length body).
Proof.
  intros Htail. induction body as [|c body IH]; cbn.
  - now rewrite Htail, Ascii.eqb_refl.
  - now rewrite IH.
Qed.

(** A label that opens with a double quote loses that quote, its last
    double quote and whatever stands behind the last one; what is left is
    put in lower case. *)
Lemma clean_collision_string_quoted (body tail : string) :
  find_last_of tail quote = None ->
  clean_collision_string (String quote (body ++ String quote tail))
  = transform tolower body.
Proof.
  intros Htail. unfold clean_collision_string.
  cbn [String.length front_is]. rewrite Ascii.eqb_refl.
  replace (2 <=? S (String.length (body ++ String quote tail))) with true.
  - cbn [andb find_last_of]. rewrite (find_last_of_closing _ _ _ Htail).
    cbn [Nat.ltb Nat.leb Nat.sub substring].
    rewrite Nat.sub_0_r. now rewrite substring_prefix.
  - symmetry. apply Nat.leb_le.
    destruct body; cbn; lia.
Qed.

(** Any other label is only put in lower case. *)
Lemma clean_collision_string_unquoted (label : string) :
  front_is label quote = false ->
  clean_collision_string label = transform tolower label.
Proof.
  intros Hfront. unfold clean_collision_string.
  now rewrite Hfront, andb_false_r.
Qed.

Section ResolverFacts.
Variable parser : c_kv3_parser.
Variable n : nat.
Hypothesis Hfirst : first_empty_slot parser n.

Lemma collision_attribute_scan_stops (d : nat) :
  forall (i fuel : nat) (indices : list nat),
    i + d = n -> d < fuel ->
    collision_attribute_scan fuel parser i indices
    = (indices ++ filter (fun j => is_default (slot_label parser j)) (seq i d),
       Done).
Proof.
  destruct Hfirst as [Hend Hbefore].
  induction d as [|d IH]; intros i fuel indices Hid Hfuel;
    (destruct fuel as [|fuel]; [lia|]); cbn [collision_attribute_scan].
  - change (get_value parser _) with (slot_label parser i).
    replace i with n by lia. rewrite Hend. cbn.
    now rewrite app_nil_r.
  - change (get_value parser _) with (slot_label parser i).
    pose proof (Hbefore i ltac:(lia)) as Hlabel.
    apply String.eqb_neq in Hlabel. rewrite Hlabel. cbn [negb seq filter].
    rewrite (IH (S i) fuel _ ltac:(lia) ltac:(lia)).
    unfold is_default at 2.
    destruct (String.eqb (clean_collision_string (slot_label parser i)) "default");
      [now rewrite <- app_assoc | reflexivity].
Qed.

Lemma get_collision_attribute_indices_filter (fuel : nat) :
  n < fuel ->
  get_collision_attribute_indices fuel parser
  = (filter (fun j => is_default (slot_label parser j)) (seq 0 n), Done).
Proof.
  intros Hfuel. unfold get_collision_attribute_indices.
  now rewrite (collision_attribute_scan_stops n 0 fuel [] eq_refl Hfuel).
Qed.
End ResolverFacts.

(** ** The output *)

Lemma Triangle_bytes_length (t : Triangle) :
  List.length (Triangle_bytes t) = sizeof_Triangle.
Proof. reflexivity. Qed.

Lemma data_length (triangles : list Triangle) :
  List.length (data triangles) = List.length triangles * sizeof_Triangle.
Proof.
  unfold data. induction triangles as [|t rest IH]; [reflexivity|].
  cbn [flat_map List.length]. rewrite length_app, IH, Triangle_bytes_length.
  lia.
Qed.

(** ** Values the decoder can hand to the loops *)

Lemma byte_val_range (b : byte) : (0 <= byte_val b < 256)%Z.
Proof.
  unfold byte_val. pose proof (Byte.to_N_bounded b). lia.
Qed.

(** Every element of a decoded [vector<int>] is a 32-bit [int]. *)
Lemma int_of_bytes_is_int (l : list byte) : is_int (int_of_bytes l).
Proof.
  unfold is_int, int_of_bytes.
  pose proof (byte_val_range (nth 0 l x00)).
  pose proof (byte_val_range (nth 1 l x00)).
  pose proof (byte_val_range (nth 2 l x00)).
  pose proof (byte_val_range (nth 3 l x00)).
  match goal with |- context [(?u <? ?c)%Z] => destruct (Z.ltb_spec u c) end; lia.
Qed.

(** Over any four vertices the indices [0,1,2,5,1,2] give one triangle,
    that of the first triple. *)
Lemma mesh_second_triple_rejected (v0 v1 v2 v3 : Vector3)
  (triangles : list Triangle) :
  triangulate_mesh [v0; v1; v2; v3] [0; 1; 2; 5; 1; 2]%Z triangles
  = (triangles ++ [mkTriangle v0 v1 v2], Done).
Proof. reflexivity. Qed.

(** A label made of its two quotes alone is not the end of the list for the
    scan; it cleans to the empty text, which is not [default]. *)
Lemma clean_collision_string_empty_quotes :
  String.eqb (String quote (String quote EmptyString)) EmptyString = false
  /\ clean_collision_string (String quote (String quote EmptyString))
     = EmptyString.
Proof. split; reflexivity. Qed.

(** * Further properties *)

(** ** Decoding blob text *)

Lemma hex_value_bound (c : ascii) : hex_value c < 16.
Proof.
  destruct c as [[] [] [] [] [] [] [] []]; vm_compute; lia.
Qed.

(** X1.  On each of the 22 hex digits the bit arithmetic of [getBits] gives
    the value of the digit, a capital letter and its small letter giving
    the same. *)
Theorem getBits_hex_digit (c : ascii) :
  is_hex_digit c = true ->
  getBits (char_val c) = Z.of_nat (hex_value c)
  /\ hex_value (tolower c) = hex_value c.
Proof.
  destruct c as [[] [] [] [] [] [] [] []]; intros Hd;
    (discriminate Hd || (split; reflexivity)).
Qed.

Lemma getBits_hex_digit_witness :
  is_hex_digit "f" = true
  /\ getBits (char_val "f") = 15%Z
  /\ getBits (char_val "F") = 15%Z.
Proof.
  split; [reflexivity|].
  split; [exact (proj1 (getBits_hex_digit "f" eq_refl))|].
  exact (proj1 (getBits_hex_digit "F" eq_refl)).
Defined.

Lemma getBits_value (c : ascii) :
  is_hex_digit c = true -> getBits (char_val c) = Z.of_nat (hex_value c).
Proof.
  destruct c as [[] [] [] [] [] [] [] []]; intros Hd;
    (discriminate Hd || reflexivity).
Qed.

Lemma lor_nibbles (h l : nat) :
  h < 16 -> l < 16 ->
  to_uint8 (Z.lor (Z.shiftl (Z.of_nat h) 4) (Z.of_nat l)) = byte_of_nat (16 * h + l).
Proof.
  intros Hh Hl.
  do 16 (destruct h as [|h]; [do 16 (destruct l as [|l]; [reflexivity|]); lia|]).
  lia.
Qed.

(** Two hex digits give the byte they spell. *)
Lemma get_byte_hex_pair (a b : ascii) :
  is_hex_digit a = true -> is_hex_digit b = true ->
  to_uint8 (get_byte (char_val a) (char_val b))
  = byte_of_nat (16 * hex_value a + hex_value b).
Proof.
  intros Ha Hb. unfold get_byte.
  rewrite (getBits_value a Ha), (getBits_value b Hb).
  apply lor_nibbles; apply hex_value_bound.
Qed.

Lemma store_split (p2 : nat) (v : byte) (buf : list byte) (k : nat) :
  p2 < List.length buf ->
  firstn (S p2) (store p2 v buf) = firstn p2 buf ++ [v]
  /\ skipn (S p2 + k) (store p2 v buf) = skipn (S p2 + k) buf.
Proof.
  intros Hp. unfold store.
  assert (Hlen : List.length (firstn p2 buf) = p2)
    by (rewrite length_firstn; lia).
  split.
  - rewrite firstn_app, Hlen.
    replace (S p2 - p2) with 1 by lia.
    rewrite firstn_all2 by lia. reflexivity.
  - rewrite skipn_app, Hlen.
    rewrite (skipn_all2 (firstn p2 buf)) by lia.
    replace (S p2 + k - p2) with (S k) by lia.
    change (skipn (S k) (v :: skipn (S p2) buf))
      with (skipn k (skipn (S p2) buf)).
    rewrite skipn_skipn. cbn [app]. f_equal. lia.
Qed.

(** The copy loop on well-formed text: the bytes of the text are written
    one after the other from the write offset on, the rest of the storage
    is left as it was, and the loop ends inside string and storage. *)
Lemma decode_loop_blob (n : nat) :
  forall (s : string) (p2 : nat) (buf : list byte),
    String.length s <= n ->
    blob_format s = true ->
    p2 + List.length (blob_bytes s) <= List.length buf ->
    decode_loop s p2 buf
    = (firstn p2 buf ++ blob_bytes s
         ++ skipn (p2 + List.length (blob_bytes s)) buf, Done).
Proof.
  induction n as [|n IH]; intros s p2 buf Hn Hfmt Hroom.
  - destruct s; [|cbn in Hn; lia].
    cbn. now rewrite Nat.add_0_r, firstn_skipn.
  - destruct s as [|a rest].
    { cbn. now rewrite Nat.add_0_r, firstn_skipn. }
    cbn [decode_loop blob_format blob_bytes] in *.
    destruct (Ascii.eqb a " ") eqn:Hsp.
    + apply Ascii.eqb_eq in Hsp. subst a. cbn [Ascii.eqb Bool.eqb andb].
      apply IH; [cbn in Hn; lia | exact Hfmt | exact Hroom].
    + destruct rest as [|b rest']; [discriminate Hfmt|].
      apply andb_prop in Hfmt as [Hfmt Hrest].
      apply andb_prop in Hfmt as [Hfmt _].
      apply andb_prop in Hfmt as [Ha Hb].
      destruct (is_hex_digit_not_end a Ha) as [Hz _]. rewrite Hz.
      cbn [List.length] in Hroom.
      destruct (Nat.leb_spec (List.length buf) p2) as [Hle|Hlt]; [lia|].
      rewrite (get_byte_hex_pair a b Ha Hb).
      set (v := byte_of_nat (16 * hex_value a + hex_value b)).
      rewrite IH;
        [| cbn in Hn; lia | exact Hrest | rewrite store_length by exact Hlt; lia].
      destruct (store_split p2 v buf (List.length (blob_bytes rest')) Hlt)
        as [Hf Hs].
      rewrite Hf, Hs. rewrite <- app_assoc. cbn [app List.length].
      replace (p2 + S (List.length (blob_bytes rest')))
        with (S p2 + List.length (blob_bytes rest')) by lia.
      reflexivity.
Qed.

(** Well-formed text of [p] bytes has at least [3 p - 1] characters. *)
Lemma blob_bytes_count (n : nat) :
  forall s : string,
    String.length s <= n ->
    blob_format s = true ->
    3 * List.length (blob_bytes s) <= String.length s + 1.
Proof.
  induction n as [|n IH]; intros s Hn Hfmt.
  - destruct s; [cbn; lia | cbn in Hn; lia].
  - destruct s as [|a rest]; [cbn; lia|].
    cbn [blob_format blob_bytes] in *.
    destruct (Ascii.eqb a " ").
    + specialize (IH rest ltac:(cbn in Hn; lia) Hfmt). cbn [String.length]. lia.
    + destruct rest as [|b rest']; [discriminate Hfmt|].
      apply andb_prop in Hfmt as [Hfmt Hrest].
      apply andb_prop in Hfmt as [_ Hsep].
      destruct rest' as [|c rest'']; [cbn; lia|].
      apply Ascii.eqb_eq in Hsep. subst c.
      cbn [blob_format blob_bytes Ascii.eqb Bool.eqb andb] in *.
      specialize (IH rest'' ltac:(cbn in Hn; lia) Hrest).
      cbn [List.length String.length]. lia.
Qed.

Lemma blob_bytes_fit (sz : nat) (s : string) :
  0 < sz -> blob_format s = true ->
  List.length (blob_bytes s) <= capacity sz s.
Proof.
  intros Hsz Hfmt. unfold capacity.
  pose proof (blob_bytes_count _ s (le_n _) Hfmt) as Hcount.
  pose proof (Nat.div_mod_eq (String.length s) 3) as H3.
  pose proof (Nat.mod_upper_bound (String.length s) 3 ltac:(lia)) as H3b.
  pose proof (Nat.div_mod_eq (String.length s / 3) sz) as Hq.
  pose proof (Nat.mod_upper_bound (String.length s / 3) sz ltac:(lia)) as Hqb.
  nia.
Qed.

Lemma skipn_repeat {A : Type} (a : A) (k n : nat) :
  skipn k (repeat a n) = repeat a (n - k).
Proof.
  revert n. induction k as [|k IH]; intros n.
  - now rewrite Nat.sub_0_r.
  - destruct n as [|n]; [reflexivity|]. cbn. apply IH.
Qed.

Lemma bytes_to_vec_well_formed {Ty : Type} `{Element Ty} (bytes : string) :
  bytes <> EmptyString ->
  blob_format bytes = true ->
  bytes_to_vec (Ty := Ty) bytes
  = (elements (blob_bytes bytes
               ++ repeat x00 (capacity sizeof bytes
                              - List.length (blob_bytes bytes))), Done).
Proof.
  intros Hne Hfmt. unfold bytes_to_vec.
  destruct bytes as [|c rest]; [congruence|].
  set (s := String c rest) in *.
  pose proof (blob_bytes_fit sizeof s sizeof_pos Hfmt) as Hfit.
  change ((String.length s / 3 / sizeof + 1) * sizeof) with (capacity sizeof s).
  rewrite (decode_loop_blob _ s 0 _ (le_n _) Hfmt)
    by (rewrite repeat_length; exact Hfit).
  cbn [firstn app Nat.add]. now rewrite skipn_repeat.
Qed.

(** X2.  On well-formed blob text (hex pairs in either case, each followed
    by a space or by the end, further spaces allowed) the decoder ends
    inside the string and inside the vector, and the vector holds the bytes
    the text spells, in order, followed by zero bytes up to its size. *)
Theorem bytes_to_vec_blob (Ty : Type) (E : Element Ty) (bytes : string) :
  bytes <> EmptyString ->
  blob_format bytes = true ->
  bytes_to_vec (Ty := Ty) bytes
  = (elements (blob_bytes bytes
               ++ repeat x00 (capacity sizeof bytes
                              - List.length (blob_bytes bytes))), Done).
Proof. apply bytes_to_vec_well_formed. Qed.

Lemma bytes_to_vec_blob_witness :
  " 0a  FF "%string <> EmptyString
  /\ blob_format " 0a  FF " = true
  /\ bytes_to_vec (Ty := byte) " 0a  FF " = ([x0a; xff; x00], Done).
Proof.
  assert (Hne : " 0a  FF "%string <> EmptyString) by discriminate.
  split; [exact Hne|]. split; [reflexivity|].
  exact (bytes_to_vec_blob byte Element_uint8_t " 0a  FF " Hne eq_refl).
Defined.

Lemma hex_digit_facts (upper : bool) (n : nat) :
  n < 16 ->
  is_hex_digit (hex_digit upper n) = true
  /\ hex_value (hex_digit upper n) = n
  /\ Ascii.eqb (hex_digit upper n) " " = false.
Proof.
  intros Hn.
  do 16 (destruct n as [|n]; [destruct upper; repeat split; reflexivity|]).
  lia.
Qed.

Lemma byte_nibbles (b : byte) :
  Byte.to_nat b / 16 < 16
  /\ Byte.to_nat b mod 16 < 16
  /\ byte_of_nat (16 * (Byte.to_nat b / 16) + Byte.to_nat b mod 16) = b.
Proof.
  pose proof (Byte.to_nat_bounded b) as Hb.
  split; [apply Nat.Div0.div_lt_upper_bound; lia|].
  split; [apply Nat.mod_upper_bound; lia|].
  rewrite <- Nat.div_mod_eq. unfold byte_of_nat. now rewrite Byte.of_to_nat.
Qed.

Section BlobText.
Variable upper : bool.

Lemma blob_pair_step (b : byte) (t : string) :
  blob_format t = true ->
  (t = EmptyString \/ exists t', t = String " " t') ->
  blob_format (hex_pair upper b ++ t) = true
  /\ blob_bytes (hex_pair upper b ++ t) = b :: blob_bytes t.
Proof.
  intros Hfmt Hsep. unfold hex_pair. cbn [append blob_format blob_bytes].
  destruct (byte_nibbles b) as [Hhi [Hlo Hval]].
  destruct (hex_digit_facts upper _ Hhi) as [Hd1 [Hv1 Hs1]].
  destruct (hex_digit_facts upper _ Hlo) as [Hd2 [Hv2 _]].
  rewrite Hs1, Hd1, Hd2, Hv1, Hv2, Hval, Hfmt. cbn [andb].
  split; [|reflexivity].
  destruct Hsep as [-> | [t' ->]]; reflexivity.
Qed.

Lemma blob_text_spaced_facts (bs : list byte) :
  blob_format (blob_text_spaced upper bs) = true
  /\ blob_bytes (blob_text_spaced upper bs) = bs
  /\ String.length (blob_text_spaced upper bs) = 3 * List.length bs.
Proof.
  induction bs as [|b rest [IHf [IHb IHl]]]; [repeat split; reflexivity|].
  cbn [blob_text_spaced].
  destruct (blob_pair_step b (" " ++ blob_text_spaced upper rest)%string)
    as [Hf Hb].
  { exact IHf. }
  { right. now exists (blob_text_spaced upper rest). }
  split; [exact Hf|]. split.
  - rewrite Hb. cbn [append blob_bytes Ascii.eqb Bool.eqb andb]. now rewrite IHb.
  - cbn [hex_pair append String.length List.length]. rewrite IHl. lia.
Qed.

Lemma blob_text_facts (bs : list byte) :
  blob_format (blob_text upper bs) = true
  /\ blob_bytes (blob_text upper bs) = bs
  /\ String.length (blob_text upper bs) = 3 * List.length bs - 1.
Proof.
  induction bs as [|b rest [IHf [IHb IHl]]]; [repeat split; reflexivity|].
  cbn [blob_text]. destruct rest as [|b' rest].
  - destruct (blob_pair_step b EmptyString eq_refl (or_introl eq_refl))
      as [Hf Hb].
    replace (hex_pair upper b ++ EmptyString)%string with (hex_pair upper b)
      in Hf, Hb by reflexivity.
    repeat split; assumption || reflexivity.
  - set (t := blob_text upper (b' :: rest)) in *.
    destruct (blob_pair_step b (" " ++ t)%string) as [Hf Hb].
    { exact IHf. }
    { right. now exists t. }
    split; [exact Hf|]. split.
    + rewrite Hb. cbn [append blob_bytes Ascii.eqb Bool.eqb andb].
      now rewrite IHb.
    + cbn [hex_pair append String.length]. rewrite IHl.
      cbn [List.length]. lia.
Qed.

Lemma blob_text_not_empty (bs : list byte) :
  bs <> [] -> blob_text upper bs <> EmptyString.
Proof.
  destruct bs as [|b [|b' rest]]; [congruence | discriminate | discriminate].
Qed.

Lemma blob_text_spaced_not_empty (bs : list byte) :
  bs <> [] -> blob_text_spaced upper bs <> EmptyString.
Proof.
  destruct bs as [|b rest]; [congruence | discriminate].
Qed.
End BlobText.

(** ** The elements of a vector *)

Lemma chunks_app (sz k m : nat) :
  forall a b : list byte,
    List.length a = k * sz ->
    chunks sz (k + m) (a ++ b) = chunks sz k a ++ chunks sz m b.
Proof.
  induction k as [|k IH]; intros a b Hlen.
  - destruct a; [reflexivity | discriminate Hlen].
  - cbn [Nat.add chunks app].
    assert (Hsz : sz <= List.length a) by (cbn in Hlen; lia).
    rewrite firstn_app, skipn_app.
    replace (sz - List.length a) with 0 by lia.
    cbn [firstn skipn]. rewrite app_nil_r.
    rewrite IH by (rewrite length_skipn; cbn in Hlen; lia).
    reflexivity.
Qed.

Lemma elements_app {Ty : Type} `{Element Ty} (k : nat) (a b : list byte) :
  List.length a = k * sizeof ->
  elements (Ty := Ty) (a ++ b) = elements a ++ elements b.
Proof.
  intros Hlen. unfold elements. pose proof sizeof_pos as Hpos.
  rewrite length_app, Hlen, Nat.div_add_l, Nat.div_mul by lia.
  rewrite chunks_app by exact Hlen. now rewrite map_app.
Qed.

Lemma elements_whole {Ty : Type} `{Element Ty} (k : nat) (a : list byte) :
  List.length a = k * sizeof -> List.length (elements (Ty := Ty) a) = k.
Proof.
  intros Hlen. rewrite elements_length, Hlen.
  apply Nat.div_mul. pose proof sizeof_pos. lia.
Qed.

Lemma elements_uint8_t (buf : list byte) : elements (Ty := byte) buf = buf.
Proof.
  unfold elements. cbn [sizeof Element_uint8_t from_bytes].
  rewrite Nat.div_1_r.
  induction buf as [|a l IH]; [reflexivity|].
  cbn [List.length chunks firstn skipn map nth]. now rewrite IH.
Qed.

Lemma capacity_blob_text (sz k n : nat) (s : string) :
  0 < k -> n = k * sz -> 0 < sz ->
  String.length s = 3 * n - 1 -> capacity sz s = n.
Proof.
  intros Hk Hn Hsz Hlen. unfold capacity. rewrite Hlen.
  assert (H3 : (3 * n - 1) / 3 = n - 1).
  { symmetry. apply (Nat.div_unique _ 3 _ 2); nia. }
  rewrite H3.
  assert (Hq : (n - 1) / sz = k - 1).
  { symmetry. apply (Nat.div_unique _ sz _ (sz - 1)); nia. }
  rewrite Hq. nia.
Qed.

Lemma capacity_blob_text_spaced (sz k n : nat) (s : string) :
  n = k * sz -> 0 < sz ->
  String.length s = 3 * n -> capacity sz s = n + sz.
Proof.
  intros Hn Hsz Hlen. unfold capacity. rewrite Hlen.
  replace (3 * n) with (n * 3) by lia. rewrite Nat.div_mul by lia.
  rewrite Hn, Nat.div_mul by lia. lia.
Qed.

(** ** Round trips through blob text *)

Lemma bytes_to_vec_blob_text_whole {Ty : Type} `{Element Ty} (upper : bool)
  (bs : list byte) (k : nat) :
  0 < k -> List.length bs = k * sizeof ->
  bytes_to_vec (Ty := Ty) (blob_text upper bs) = (elements bs, Done).
Proof.
  intros Hk Hlen. pose proof sizeof_pos as Hpos.
  destruct (blob_text_facts upper bs) as [Hf [Hb Hl]].
  assert (Hne : bs <> []) by (destruct bs; [cbn in Hlen; nia | discriminate]).
  rewrite (bytes_to_vec_well_formed _ (blob_text_not_empty upper bs Hne) Hf).
  rewrite Hb, (capacity_blob_text sizeof k (List.length bs)) by (lia || assumption).
  now rewrite Nat.sub_diag, app_nil_r.
Qed.

Lemma bytes_to_vec_blob_text_spaced_whole {Ty : Type} `{Element Ty}
  (upper : bool) (bs : list byte) (k : nat) :
  0 < k -> List.length bs = k * sizeof ->
  bytes_to_vec (Ty := Ty) (blob_text_spaced upper bs)
  = (elements bs ++ [from_bytes (repeat x00 sizeof)], Done).
Proof.
  intros Hk Hlen. pose proof sizeof_pos as Hpos.
  destruct (blob_text_spaced_facts upper bs) as [Hf [Hb Hl]].
  assert (Hne : bs <> []) by (destruct bs; [cbn in Hlen; nia | discriminate]).
  rewrite (bytes_to_vec_well_formed _ (blob_text_spaced_not_empty upper bs Hne) Hf).
  rewrite Hb, (capacity_blob_text_spaced sizeof k (List.length bs))
    by (lia || assumption).
  replace (List.length bs + sizeof - List.length bs) with sizeof by lia.
  rewrite (elements_app k) by exact Hlen.
  do 2 f_equal. unfold elements. rewrite repeat_length, Nat.div_same by lia.
  cbn [chunks map]. now rewrite firstn_all2 by (rewrite repeat_length; lia).
Qed.

(** X3.  Bytes written as blob text with one space between them and none
    behind the last come back from the decoder as they were: the text may
    be in capitals or in small letters, and the vector has no element more
    than there were bytes. *)
Theorem blob_text_round_trip (upper : bool) (bs : list byte) :
  bs <> [] ->
  bytes_to_vec (Ty := byte) (blob_text upper bs) = (bs, Done).
Proof.
  intros Hne.
  rewrite (bytes_to_vec_blob_text_whole upper bs (List.length bs)).
  - now rewrite elements_uint8_t.
  - destruct bs; [congruence | cbn; lia].
  - cbn [sizeof Element_uint8_t]. lia.
Qed.

Lemma blob_text_round_trip_witness :
  [x0a; xff; x7f] <> []
  /\ blob_text false [x0a; xff; x7f] = "0a ff 7f"%string
  /\ bytes_to_vec (Ty := byte) "0a ff 7f" = ([x0a; xff; x7f], Done).
Proof.
  assert (Hne : [x0a; xff; x7f] <> []) by discriminate.
  split; [exact Hne|]. split; [reflexivity|].
  exact (blob_text_round_trip false [x0a; xff; x7f] Hne).
Defined.

(** X4.  For every element type, the text of [k >= 1] whole elements with
    no space behind the last byte decodes to exactly those [k] elements,
    each read from its [sizeof] bytes in order. *)
Theorem blob_text_whole_elements (Ty : Type) (E : Element Ty) (upper : bool)
  (bs : list byte) (k : nat) :
  0 < k -> List.length bs = k * sizeof ->
  bytes_to_vec (Ty := Ty) (blob_text upper bs) = (elements bs, Done)
  /\ List.length (elements (Ty := Ty) bs) = k.
Proof.
  intros Hk Hlen. split.
  - exact (bytes_to_vec_blob_text_whole upper bs k Hk Hlen).
  - exact (elements_whole k bs Hlen).
Qed.

Lemma blob_text_whole_elements_witness :
  0 < 2
  /\ bytes_to_vec (Ty := Z) "01 00 00 00 FE FF FF FF" = ([1; -2]%Z, Done).
Proof.
  split; [lia|].
  exact (proj1 (blob_text_whole_elements Z Element_int true
                  [x01; x00; x00; x00; xfe; xff; xff; xff] 2
                  ltac:(lia) eq_refl)).
Defined.

(** X5.  With a space behind the last byte as well, the text of [k >= 1]
    whole elements decodes to those [k] elements and one more behind them,
    the element of all-zero bytes. *)
Theorem blob_text_spaced_extra_element (Ty : Type) (E : Element Ty)
  (upper : bool) (bs : list byte) (k : nat) :
  0 < k -> List.length bs = k * sizeof ->
  bytes_to_vec (Ty := Ty) (blob_text_spaced upper bs)
  = (elements bs ++ [from_bytes (repeat x00 sizeof)], Done).
Proof. apply bytes_to_vec_blob_text_spaced_whole. Qed.

Lemma blob_text_spaced_extra_element_witness :
  0 < 1
  /\ bytes_to_vec (Ty := Z) "FE FF FF FF " = ([-2; 0]%Z, Done).
Proof.
  split; [lia|].
  exact (blob_text_spaced_extra_element Z Element_int true
           [xfe; xff; xff; xff] 1 ltac:(lia) eq_refl).
Defined.

Lemma decode_loop_lone_character (n : nat) (c : ascii) :
  Ascii.eqb c " " = false -> Ascii.eqb c zero = false ->
  forall (s : string) (p2 : nat) (buf : list byte),
    String.length s <= n ->
    blob_format s = true ->
    snd (decode_loop (s ++ String c EmptyString) p2 buf) = OutOfRange.
Proof.
  intros Hsp Hz.
  induction n as [|n IH]; intros s p2 buf Hn Hfmt.
  - destruct s; [|cbn in Hn; lia].
    cbn [append decode_loop]. rewrite Hz, Hsp.
    destruct (List.length buf <=? p2); reflexivity.
  - destruct s as [|a rest].
    { cbn [append decode_loop]. rewrite Hz, Hsp.
      destruct (List.length buf <=? p2); reflexivity. }
    cbn [append decode_loop blob_format] in *.
    destruct (Ascii.eqb a " ") eqn:Ha.
    + apply Ascii.eqb_eq in Ha. subst a. cbn [Ascii.eqb Bool.eqb andb].
      apply IH; [cbn in Hn; lia | exact Hfmt].
    + destruct rest as [|b rest']; [discriminate Hfmt|].
      apply andb_prop in Hfmt as [Hfmt Hrest].
      apply andb_prop in Hfmt as [Hfmt _].
      apply andb_prop in Hfmt as [Hda _].
      destruct (is_hex_digit_not_end a Hda) as [Haz _]. rewrite Haz.
      cbn [append].
      destruct (List.length buf <=? p2); [reflexivity|].
      apply IH; [cbn in Hn; lia | exact Hrest].
Qed.

(** X6.  Only the space separates: a single further character behind
    well-formed text, a line feed for one, is taken for the first digit of
    a pair, and the copy loop steps over the end of the string. *)
Theorem lone_character_overruns (Ty : Type) (E : Element Ty) (bytes : string)
  (c : ascii) :
  blob_format bytes = true ->
  Ascii.eqb c " " = false -> Ascii.eqb c zero = false ->
  snd (bytes_to_vec (Ty := Ty) (bytes ++ String c EmptyString)) = OutOfRange.
Proof.
  intros Hfmt Hsp Hz. unfold bytes_to_vec.
  destruct (bytes ++ String c EmptyString)%string as [|c0 rest] eqn:Hs.
  { destruct bytes; discriminate Hs. }
  rewrite <- Hs.
  set (vec := repeat x00 _).
  pose proof (decode_loop_lone_character _ c Hsp Hz bytes 0 vec (le_n _) Hfmt)
    as Hst.
  destruct (decode_loop (bytes ++ String c EmptyString) 0 vec) as [buf st].
  exact Hst.
Qed.

Lemma lone_character_overruns_witness :
  blob_format "0A FF" = true
  /\ snd (bytes_to_vec (Ty := byte) ("0A FF" ++ String newline EmptyString))
     = OutOfRange.
Proof.
  split; [reflexivity|].
  exact (lone_character_overruns byte Element_uint8_t "0A FF" newline
           eq_refl eq_refl eq_refl).
Defined.

(** ** Cleaning labels *)

Lemma tolower_facts (c : ascii) :
  tolower (tolower c) = tolower c
  /\ Ascii.eqb (tolower c) quote = Ascii.eqb c quote.
Proof.
  destruct c as [[] [] [] [] [] [] [] []]; split; reflexivity.
Qed.

Lemma transform_length (f : ascii -> ascii) (s : string) :
  String.length (transform f s) = String.length s.
Proof.
  induction s as [|c s IH]; cbn; [reflexivity | now rewrite IH].
Qed.

Lemma transform_tolower_idem (s : string) :
  transform tolower (transform tolower s) = transform tolower s.
Proof.
  induction s as [|c s IH]; cbn; [reflexivity|].
  now rewrite IH, (proj1 (tolower_facts c)).
Qed.

Lemma find_last_of_tolower (s : string) :
  find_last_of (transform tolower s) quote = find_last_of s quote.
Proof.
  induction s as [|c s IH]; cbn [transform find_last_of]; [reflexivity|].
  now rewrite IH, (proj2 (tolower_facts c)).
Qed.

Lemma substring_transform (f : ascii -> ascii) (s : string) :
  forall n m, substring n m (transform f s) = transform f (substring n m s).
Proof.
  induction s as [|c s IH]; intros n m.
  - destruct n, m; reflexivity.
  - destruct n as [|n]; [destruct m as [|m]|]; cbn; [reflexivity | | apply IH].
    now rewrite IH.
Qed.

Lemma front_is_tolower (s : string) :
  front_is (transform tolower s) quote = front_is s quote.
Proof.
  destruct s as [|c s]; [reflexivity|]. cbn [transform front_is].
  apply tolower_facts.
Qed.

(** Cleaning sees no difference between a label and the label in small
    letters. *)
Lemma clean_collision_string_tolower (s : string) :
  clean_collision_string (transform tolower s) = clean_collision_string s.
Proof.
  unfold clean_collision_string. cbv zeta.
  rewrite transform_length, front_is_tolower, find_last_of_tolower.
  destruct ((2 <=? String.length s) && front_is s quote);
    [|apply transform_tolower_idem].
  destruct (find_last_of s quote) as [i|]; [|apply transform_tolower_idem].
  destruct (0 <? i); [|apply transform_tolower_idem].
  rewrite substring_transform. apply transform_tolower_idem.
Qed.

(** X7.  Two labels that differ only in the case of their letters clean to
    the same text, and so are both accepted or both rejected. *)
Theorem clean_collision_string_ignores_case (s1 s2 : string) :
  transform tolower s1 = transform tolower s2 ->
  clean_collision_string s1 = clean_collision_string s2
  /\ is_default s1 = is_default s2.
Proof.
  intros Hsame.
  assert (Hclean : clean_collision_string s1 = clean_collision_string s2).
  { rewrite <- (clean_collision_string_tolower s1),
            <- (clean_collision_string_tolower s2).
    now rewrite Hsame. }
  split; [exact Hclean|]. unfold is_default. now rewrite Hclean.
Qed.

Lemma clean_collision_string_ignores_case_witness :
  transform tolower "DeFault" = transform tolower "dEFAULT"
  /\ is_default "DeFault" = is_default "dEFAULT".
Proof.
  split; [reflexivity|].
  exact (proj2 (clean_collision_string_ignores_case "DeFault" "dEFAULT" eq_refl)).
Defined.

Lemma find_last_of_split (q : ascii) (s : string) :
  forall i, find_last_of s q = Some i ->
    exists body tail,
      s = (body ++ String q tail)%string
      /\ String.length body = i
      /\ find_last_of tail q = None.
Proof.
  induction s as [|c s IH]; intros i Hi; [discriminate Hi|].
  cbn [find_last_of] in Hi.
  destruct (find_last_of s q) as [j|] eqn:Hj.
  - injection Hi as <-. destruct (IH j eq_refl) as [body [tail [-> [Hlen Htail]]]].
    exists (String c body), tail. cbn. now rewrite Hlen.
  - destruct (Ascii.eqb c q) eqn:Hc; [|discriminate Hi].
    injection Hi as <-. apply Ascii.eqb_eq in Hc. subst c.
    exists EmptyString, s. repeat split; assumption || reflexivity.
Qed.

Lemma lower_default_unquoted (label : string) :
  transform tolower label = "default"%string -> front_is label quote = false.
Proof.
  destruct label as [|c rest]; [reflexivity|]. cbn [transform front_is].
  intros Hl. destruct (Ascii.eqb c quote) eqn:Hc; [|reflexivity].
  apply Ascii.eqb_eq in Hc. subst c. discriminate Hl.
Qed.

Lemma is_default_characterised (label : string) :
  is_default label = true
  <-> transform tolower label = "default"%string
      \/ exists body tail,
           label = String quote (body ++ String quote tail)
           /\ find_last_of tail quote = None
           /\ transform tolower body = "default"%string.
Proof.
  unfold is_default. rewrite String.eqb_eq. split.
  - unfold clean_collision_string. cbv zeta.
    destruct ((2 <=? String.length label) && front_is label quote) eqn:Hq;
      [|now left].
    apply andb_prop in Hq as [_ Hfront].
    destruct label as [|c rest]; [discriminate Hfront|].
    cbn [front_is] in Hfront. apply Ascii.eqb_eq in Hfront. subst c.
    cbn [find_last_of]. rewrite Ascii.eqb_refl.
    destruct (find_last_of rest quote) as [i|] eqn:Hi; [|now left].
    destruct (find_last_of_split quote rest i Hi)
      as [body [tail [-> [Hlen Htail]]]].
    cbn [Nat.ltb Nat.leb Nat.sub substring]. rewrite Nat.sub_0_r, <- Hlen.
    rewrite substring_prefix. intros Hbody.
    right. now exists body, tail.
  - intros [Hbare | [body [tail [-> [Htail Hbody]]]]].
    + rewrite clean_collision_string_unquoted; [exact Hbare|].
      now apply lower_default_unquoted.
    + now rewrite clean_collision_string_quoted.
Qed.

(** X8.  The labels the resolver accepts are these and no others: the
    word [default] in any mix of capitals and small letters, either bare,
    or between a leading double quote and the last double quote of the
    label, whatever follows that last quote. *)
Theorem is_default_labels (label : string) :
  is_default label = true
  <-> transform tolower label = "default"%string
      \/ exists body tail,
           label = String quote (body ++ String quote tail)
           /\ find_last_of tail quote = None
           /\ transform tolower body = "default"%string.
Proof. apply is_default_characterised. Qed.

(** ** The scan of the resolver *)

Lemma collision_attribute_scan_unending (parser : c_kv3_parser) :
  (forall j, slot_label parser j <> EmptyString) ->
  forall (fuel index : nat) (indices : list nat),
    snd (collision_attribute_scan fuel parser index indices) = OutOfFuel.
Proof.
  intros Hall. induction fuel as [|fuel IH]; intros index indices;
    [reflexivity|].
  cbn [collision_attribute_scan].
  change (get_value parser _) with (slot_label parser index).
  pose proof (Hall index) as Hl. apply String.eqb_neq in Hl. rewrite Hl.
  cbn [negb]. apply IH.
Qed.

(** X9.  Nothing but an empty answer ends the scan: against a parser that
    answers every slot with some text, no allowance is enough. *)
Theorem scan_needs_empty_answer (parser : c_kv3_parser) (fuel : nat) :
  (forall j, slot_label parser j <> EmptyString) ->
  snd (get_collision_attribute_indices fuel parser) = OutOfFuel.
Proof.
  intros Hall. now apply collision_attribute_scan_unending.
Qed.

Lemma scan_needs_empty_answer_witness :
  snd (get_collision_attribute_indices 1000
         {| get_value := fun _ => "default"%string |}) = OutOfFuel.
Proof.
  apply (scan_needs_empty_answer {| get_value := fun _ => "default"%string |} 1000).
  intros j. discriminate.
Defined.

(** ** What a hull can give *)

Section HullShape.
Variable vertices : list Vector3.
Variable edges : list Edge.

Lemma push_fan_triangle_shape (start_edge edge nextEdge : nat)
  (triangles : list Triangle) :
  exists emitted,
    fst (push_fan_triangle vertices edges start_edge edge nextEdge triangles)
    = triangles ++ emitted
    /\ List.length emitted <= 1
    /\ Forall (fun t => from_vertices vertices t
                        /\ p1 t = origin_vertex vertices edges start_edge)
              emitted.
Proof.
  unfold push_fan_triangle.
  assert (Hnone : exists emitted : list Triangle,
             triangles = triangles ++ emitted
             /\ List.length emitted <= 1
             /\ Forall (fun t => from_vertices vertices t
                                 /\ p1 t = origin_vertex vertices edges start_edge)
                       emitted).
  { exists []. rewrite app_nil_r. repeat split; [cbn; lia | constructor]. }
  destruct (at_index edges start_edge) as [es|] eqn:Hes; [|exact Hnone].
  destruct (u8 (origin es) <? List.length vertices); [|exact Hnone].
  destruct (at_index edges edge) as [ee|]; [|exact Hnone].
  destruct (u8 (origin ee) <? List.length vertices); [|exact Hnone].
  destruct (at_index edges nextEdge) as [en|]; [|exact Hnone].
  destruct (u8 (origin en) <? List.length vertices); [|exact Hnone].
  destruct (at_index vertices (u8 (origin es))) as [v1|] eqn:H1; [|exact Hnone].
  destruct (at_index vertices (u8 (origin ee))) as [v2|] eqn:H2; [|exact Hnone].
  destruct (at_index vertices (u8 (origin en))) as [v3|] eqn:H3; [|exact Hnone].
  exists [mkTriangle v1 v2 v3]. cbn [fst List.length].
  split; [reflexivity|]. split; [lia|].
  constructor; [|constructor]. unfold from_vertices, at_index in *. cbn [p1 p2 p3].
  repeat split; try (eapply nth_error_In; eassumption).
  unfold origin_vertex, origin_of. rewrite Hes.
  symmetry. now apply nth_error_nth.
Qed.

Lemma face_walk_shape (fuel : nat) :
  forall (start_edge edge face_vertex_count : nat) (triangles : list Triangle),
    exists emitted,
      fst (face_walk vertices edges fuel start_edge edge face_vertex_count triangles)
      = triangles ++ emitted
      /\ List.length emitted <= 100 - face_vertex_count
      /\ Forall (fun t => from_vertices vertices t
                          /\ p1 t = origin_vertex vertices edges start_edge)
                emitted.
Proof.
  induction fuel as [|fuel IH]; intros start_edge edge count triangles.
  - exists []. rewrite app_nil_r. cbn [face_walk].
    destruct (negb (edge =? start_edge) && (count <? 100));
      repeat split; cbn; try lia; constructor.
  - assert (Hnone : exists emitted : list Triangle,
               triangles = triangles ++ emitted
               /\ List.length emitted <= 100 - count
               /\ Forall (fun t => from_vertices vertices t
                                   /\ p1 t = origin_vertex vertices edges start_edge)
                         emitted).
    { exists []. rewrite app_nil_r. repeat split; [cbn; lia | constructor]. }
    cbn [face_walk].
    destruct (negb (edge =? start_edge)); cbn [andb]; [|exact Hnone].
    destruct (Nat.ltb_spec count 100) as [Hc|Hc]; [|exact Hnone].
    destruct (List.length edges <=? edge); [exact Hnone|].
    destruct (at_index edges edge) as [r|]; [|exact Hnone].
    destruct (List.length edges <=? u8 (next r)); [exact Hnone|].
    destruct (push_fan_triangle_shape start_edge edge (u8 (next r)) triangles)
      as [em1 [Hpush [Hlen1 Hall1]]].
    destruct (push_fan_triangle vertices edges start_edge edge (u8 (next r)) triangles)
      as [triangles' st]. cbn [fst] in Hpush. subst triangles'.
    destruct (IH start_edge (u8 (next r)) (S count) (triangles ++ em1))
      as [em2 [Hwalk [Hlen2 Hall2]]].
    destruct st.
    + exists (em1 ++ em2). rewrite Hwalk, app_assoc.
      split; [reflexivity|]. split; [rewrite length_app; lia|].
      apply Forall_app. now split.
    + exists em1. cbn [fst]. repeat split; [lia | exact Hall1].
    + exists em1. cbn [fst]. repeat split; [lia | exact Hall1].
Qed.

Lemma hull_faces_shape (fuel : nat) (faces : list byte) :
  forall triangles : list Triangle,
    exists emitted,
      fst (hull_faces vertices edges fuel faces triangles) = triangles ++ emitted
      /\ List.length emitted <= 100 * List.length faces
      /\ Forall (fun t => from_vertices vertices t
                          /\ exists start_edge,
                               In start_edge faces
                               /\ p1 t = origin_vertex vertices edges (u8 start_edge))
                emitted.
Proof.
  induction faces as [|start_edge rest IH]; intros triangles.
  - exists []. cbn. rewrite app_nil_r. repeat split; [lia | constructor].
  - assert (Hweaken : forall em,
               Forall (fun t => from_vertices vertices t
                                /\ exists s, In s rest
                                     /\ p1 t = origin_vertex vertices edges (u8 s)) em ->
               Forall (fun t => from_vertices vertices t
                                /\ exists s, In s (start_edge :: rest)
                                     /\ p1 t = origin_vertex vertices edges (u8 s)) em).
    { intros em. apply Forall_impl. intros t [Hv [s [Hs Hp]]].
      split; [exact Hv|]. exists s. split; [now right | exact Hp]. }
    cbn [hull_faces].
    destruct (List.length edges <=? u8 start_edge).
    { destruct (IH triangles) as [em [Hrun [Hlen Hall]]].
      exists em. repeat split; [exact Hrun | cbn [List.length]; lia | now apply Hweaken]. }
    destruct (at_index edges (u8 start_edge)) as [r|].
    2:{ exists []. cbn. rewrite app_nil_r. repeat split; [lia | constructor]. }
    destruct (face_walk_shape fuel (u8 start_edge) (u8 (next r)) 0 triangles)
      as [em1 [Hwalk [Hlen1 Hall1]]].
    assert (Hall1' : Forall (fun t => from_vertices vertices t
                                /\ exists s, In s (start_edge :: rest)
                                     /\ p1 t = origin_vertex vertices edges (u8 s)) em1).
    { revert Hall1. apply Forall_impl. intros t [Hv Hp].
      split; [exact Hv|]. exists start_edge. split; [now left | exact Hp]. }
    destruct (face_walk vertices edges fuel (u8 start_edge) (u8 (next r)) 0 triangles)
      as [triangles' st]. cbn [fst] in Hwalk. subst triangles'.
    destruct (IH (triangles ++ em1)) as [em2 [Hrun [Hlen2 Hall2]]].
    destruct st.
    + exists (em1 ++ em2). rewrite Hrun, app_assoc.
      split; [reflexivity|]. split; [rewrite length_app; cbn [List.length]; lia|].
      apply Forall_app. split; [exact Hall1' | now apply Hweaken].
    + exists em1. cbn [fst List.length]. repeat split; [lia | exact Hall1'].
    + exists em1. cbn [fst List.length]. repeat split; [lia | exact Hall1'].
Qed.
End HullShape.

(** X10.  A hull adds at most 100 triangles for each of its faces,
    whatever its arrays hold. *)
Theorem triangulate_hull_at_most_100_per_face (vertices : list Vector3)
  (faces : list byte) (edges : list Edge) (triangles : list Triangle) :
  List.length (fst (triangulate_hull vertices faces edges triangles))
  <= List.length triangles + 100 * List.length faces.
Proof.
  unfold triangulate_hull.
  destruct (hull_faces_shape vertices edges 100 faces triangles)
    as [emitted [-> [Hlen _]]].
  rewrite length_app. lia.
Qed.

(** X11.  Every triangle a hull adds is made of three entries of its
    vertex array, the first of them the origin vertex of the start
    half-edge of one of its faces; the triangles already there stay in
    front, untouched. *)
Theorem triangulate_hull_uses_vertices (vertices : list Vector3)
  (faces : list byte) (edges : list Edge) (triangles : list Triangle) :
  exists emitted,
    fst (triangulate_hull vertices faces edges triangles) = triangles ++ emitted
    /\ Forall (fun t => from_vertices vertices t
                        /\ exists start_edge,
                             In start_edge faces
                             /\ p1 t = origin_vertex vertices edges (u8 start_edge))
              emitted.
Proof.
  unfold triangulate_hull.
  destruct (hull_faces_shape vertices edges 100 faces triangles)
    as [emitted [Hrun [_ Hall]]].
  now exists emitted.
Qed.

Section LongLoop.
Variable vertices : list Vector3.
Variable edges : list Edge.

(** The walk along a loop of more than 101 half-edges, from its [j]-th
    half-edge until the step counter stops it. *)
Lemma face_walk_cut_short (start n : nat) :
  face_loop vertices edges start n = true ->
  101 < n ->
  forall (d j fuel : nat) (triangles : list Triangle),
    j + d = 101 -> 1 <= j -> d <= fuel ->
    face_walk vertices edges fuel start (orbit edges start j) (j - 1) triangles
    = (triangles ++ map (fan_triangle vertices edges start) (seq j d), Done).
Proof.
  intros Hloop Hn.
  induction d as [|d IH]; intros j fuel triangles Hjd Hj Hfuel.
  - replace (j - 1) with 100 by lia. cbn [seq map]. rewrite app_nil_r.
    destruct fuel; cbn [face_walk]; now rewrite andb_false_r.
  - destruct fuel as [|fuel]; [lia|].
    cbn [face_walk].
    pose proof (face_loop_first_return _ _ _ _ Hloop j ltac:(lia)) as Hne.
    apply Nat.eqb_neq in Hne. rewrite Hne.
    destruct (Nat.ltb_spec (j - 1) 100) as [_|Hc]; [|lia].
    cbn [negb andb].
    destruct (face_loop_indices _ _ _ _ Hloop j ltac:(lia)) as [Hje Hjo].
    destruct (face_loop_indices _ _ _ _ Hloop 0 ltac:(lia)) as [Hse Hso].
    change (orbit edges start 0) with start in Hse, Hso.
    destruct (face_loop_indices _ _ _ _ Hloop (S j) ltac:(lia)) as [Hne' Hno'].
    destruct (Nat.leb_spec (List.length edges) (orbit edges start j)) as [Hbad|_];
      [lia|].
    destruct (at_index_in_range _ _ Hje) as [r Hr]. rewrite Hr.
    assert (Hnext : u8 (next r) = orbit edges start (S j)).
    { rewrite orbit_step. unfold next_of. unfold at_index in Hr. now rewrite Hr. }
    rewrite Hnext.
    destruct (Nat.leb_spec (List.length edges) (orbit edges start (S j)))
      as [Hbad|_]; [lia|].
    rewrite (push_fan_triangle_emits _ _ _ _ _ triangles Hse Hso Hje Hjo Hne' Hno').
    replace (S (j - 1)) with (S j - 1) by lia.
    rewrite (IH (S j) fuel _ ltac:(lia) ltac:(lia) ltac:(lia)).
    cbn [seq map]. rewrite <- app_assoc. reflexivity.
Qed.
End LongLoop.

(** X12.  A face whose closed loop has more than 101 half-edges is cut
    short: the walk stops after 100 steps with the first 100 triangles of
    the fan, and the remaining half-edges of the loop give nothing. *)
Theorem long_face_loop_cut_short (vertices : list Vector3) (edges : list Edge)
  (start_edge : byte) (n : nat) (triangles : list Triangle) :
  101 < n ->
  face_loop vertices edges (u8 start_edge) n = true ->
  triangulate_hull vertices [start_edge] edges triangles
  = (triangles ++ map (fan_triangle vertices edges (u8 start_edge)) (seq 1 100),
     Done).
Proof.
  intros Hn Hloop.
  destruct (face_loop_indices _ _ _ _ Hloop 0 ltac:(lia)) as [Hse _].
  change (orbit edges (u8 start_edge) 0) with (u8 start_edge) in Hse.
  unfold triangulate_hull. cbn [hull_faces].
  destruct (Nat.leb_spec (List.length edges) (u8 start_edge)) as [Hbad|_];
    [lia|].
  destruct (at_index_in_range _ _ Hse) as [r Hr]. rewrite Hr.
  assert (Hnext : u8 (next r) = orbit edges (u8 start_edge) 1).
  { rewrite orbit_step. unfold next_of. unfold at_index in Hr.
    change (orbit edges (u8 start_edge) 0) with (u8 start_edge).
    now rewrite Hr. }
  rewrite Hnext.
  pose proof (face_walk_cut_short vertices edges (u8 start_edge) n Hloop Hn
                100 1 100 triangles ltac:(lia) ltac:(lia) ltac:(lia)) as Hwalk.
  change (1 - 1) with 0 in Hwalk. rewrite Hwalk. reflexivity.
Qed.

Lemma long_face_loop_cut_short_witness :
  101 < 120
  /\ face_loop square_vertices (ring_edges 120) (u8 x00) 120 = true
  /\ List.length (fst (triangulate_hull square_vertices [x00] (ring_edges 120) []))
     = 100.
Proof.
  assert (Hloop : face_loop square_vertices (ring_edges 120) (u8 x00) 120 = true)
    by (vm_compute; reflexivity).
  split; [lia|]. split; [exact Hloop|].
  rewrite (long_face_loop_cut_short square_vertices (ring_edges 120) x00 120 []
             ltac:(lia) Hloop).
  cbn [fst app]. now rewrite length_map, length_seq.
Defined.

(** ** Faces one after the other *)

Section HullCompose.
Variable vertices : list Vector3.
Variable edges : list Edge.

Lemma push_fan_triangle_acc (start_edge edge nextEdge : nat)
  (triangles : list Triangle) :
  push_fan_triangle vertices edges start_edge edge nextEdge triangles
  = (triangles ++ fst (push_fan_triangle vertices edges start_edge edge nextEdge []),
     snd (push_fan_triangle vertices edges start_edge edge nextEdge [])).
Proof.
  unfold push_fan_triangle.
  repeat match goal with
         | |- context [match ?o with Some _ => _ | None => _ end] => destruct o
         | |- context [if ?b then _ else _] => destruct b
         end; cbn [fst snd app]; now rewrite ?app_nil_r.
Qed.

Lemma face_walk_acc (fuel : nat) :
  forall (start_edge edge face_vertex_count : nat) (triangles : list Triangle),
    face_walk vertices edges fuel start_edge edge face_vertex_count triangles
    = (triangles
         ++ fst (face_walk vertices edges fuel start_edge edge face_vertex_count []),
       snd (face_walk vertices edges fuel start_edge edge face_vertex_count [])).
Proof.
  induction fuel as [|fuel IH]; intros start_edge edge count triangles.
  - cbn [face_walk].
    destruct (negb (edge =? start_edge) && (count <? 100));
      cbn [fst snd]; now rewrite app_nil_r.
  - cbn [face_walk].
    destruct (negb (edge =? start_edge) && (count <? 100));
      [|cbn [fst snd]; now rewrite app_nil_r].
    destruct (List.length edges <=? edge);
      [cbn [fst snd]; now rewrite app_nil_r|].
    destruct (at_index edges edge) as [r|];
      [|cbn [fst snd]; now rewrite app_nil_r].
    destruct (List.length edges <=? u8 (next r));
      [cbn [fst snd]; now rewrite app_nil_r|].
    rewrite (push_fan_triangle_acc start_edge edge (u8 (next r)) triangles).
    destruct (push_fan_triangle vertices edges start_edge edge (u8 (next r)) [])
      as [em st]. cbn [fst snd].
    destruct st; cbn [fst snd]; try reflexivity.
    rewrite (IH start_edge (u8 (next r)) (S count) (triangles ++ em)).
    rewrite (IH start_edge (u8 (next r)) (S count) em).
    cbn [fst snd]. now rewrite app_assoc.
Qed.

Lemma hull_faces_acc (fuel : nat) (faces : list byte) :
  forall triangles : list Triangle,
    hull_faces vertices edges fuel faces triangles
    = (triangles ++ fst (hull_faces vertices edges fuel faces []),
       snd (hull_faces vertices edges fuel faces [])).
Proof.
  induction faces as [|start_edge rest IH]; intros triangles.
  - cbn. now rewrite app_nil_r.
  - cbn [hull_faces].
    destruct (List.length edges <=? u8 start_edge); [apply IH|].
    destruct (at_index edges (u8 start_edge)) as [r|];
      [|cbn [fst snd]; now rewrite app_nil_r].
    rewrite (face_walk_acc fuel (u8 start_edge) (u8 (next r)) 0 triangles).
    destruct (face_walk vertices edges fuel (u8 start_edge) (u8 (next r)) 0 [])
      as [em st]. cbn [fst snd].
    destruct st; cbn [fst snd]; try reflexivity.
    rewrite (IH (triangles ++ em)), (IH em).
    cbn [fst snd]. now rewrite app_assoc.
Qed.

Lemma hull_faces_app (faces1 faces2 : list byte) :
  forall triangles : list Triangle,
    hull_faces vertices edges 100 (faces1 ++ faces2) triangles
    = hull_faces vertices edges 100 faces2
        (fst (hull_faces vertices edges 100 faces1 triangles)).
Proof.
  induction faces1 as [|start_edge rest IH]; intros triangles; [reflexivity|].
  cbn [app hull_faces].
  destruct (Nat.leb_spec (List.length edges) (u8 start_edge)) as [Hs|Hs];
    [apply IH|].
  in_range_read Hs.
  destruct (face_walk_in_range vertices edges 100 (u8 start_edge) (u8 (next r)) 0
              triangles Hs ltac:(lia)) as [em Hwalk].
  rewrite Hwalk. apply IH.
Qed.
End HullCompose.

(** X13.  What a hull adds does not depend on what the buffer held, and
    the faces are handled one after the other: the triangles of a face
    list in two parts are those of the first part followed by those of the
    second, each as if it were triangulated alone. *)
Theorem triangulate_hull_by_parts (vertices : list Vector3)
  (faces1 faces2 : list byte) (edges : list Edge) (triangles : list Triangle) :
  triangulate_hull vertices (faces1 ++ faces2) edges triangles
  = (triangles ++ fst (triangulate_hull vertices faces1 edges [])
       ++ fst (triangulate_hull vertices faces2 edges []), Done).
Proof.
  unfold triangulate_hull.
  rewrite hull_faces_app.
  rewrite (hull_faces_acc vertices edges 100 faces1 triangles). cbn [fst].
  rewrite (hull_faces_acc vertices edges 100 faces2).
  destruct (hull_faces_in_range vertices edges faces2 []) as [em Hrun].
  rewrite Hrun. cbn [fst snd app]. now rewrite app_assoc.
Qed.

(** ** What a mesh can give *)

Section MeshShape.
Variable vertices : list Vector3.
Variable indices : list Z.

Lemma push_mesh_triangle_shape (i : nat) (triangles : list Triangle) :
  exists emitted,
    fst (push_mesh_triangle vertices indices i triangles) = triangles ++ emitted
    /\ (emitted = [] \/ (List.length emitted = 1 /\ i + 2 < List.length indices))
    /\ Forall (from_vertices vertices) emitted.
Proof.
  unfold push_mesh_triangle.
  assert (Hnone : exists emitted : list Triangle,
             triangles = triangles ++ emitted
             /\ (emitted = []
                 \/ (List.length emitted = 1 /\ i + 2 < List.length indices))
             /\ Forall (from_vertices vertices) emitted).
  { exists []. rewrite app_nil_r. repeat split; [now left | constructor]. }
  destruct (at_index indices i) as [a|]; [|exact Hnone].
  destruct (below_size vertices a); [|exact Hnone].
  destruct (at_index indices (i + 1)) as [b|]; [|exact Hnone].
  destruct (below_size vertices b); [|exact Hnone].
  destruct (at_index indices (i + 2)) as [c|] eqn:Hc; [|exact Hnone].
  destruct (below_size vertices c); [|exact Hnone].
  unfold vertex_at.
  destruct (at_index vertices (Z.to_nat (to_size_t a))) as [v1|] eqn:H1;
    [|exact Hnone].
  destruct (at_index vertices (Z.to_nat (to_size_t b))) as [v2|] eqn:H2;
    [|exact Hnone].
  destruct (at_index vertices (Z.to_nat (to_size_t c))) as [v3|] eqn:H3;
    [|exact Hnone].
  exists [mkTriangle v1 v2 v3]. cbn [fst].
  split; [reflexivity|]. split.
  - right. split; [reflexivity|].
    apply nth_error_Some. unfold at_index in Hc. now rewrite Hc.
  - constructor; [|constructor]. unfold from_vertices, at_index in *.
    cbn [p1 p2 p3]. repeat split; eapply nth_error_In; eassumption.
Qed.

Lemma mesh_loop_shape (fuel : nat) :
  forall (i : nat) (triangles : list Triangle),
    exists emitted,
      fst (mesh_loop vertices indices fuel i triangles) = triangles ++ emitted
      /\ 3 * List.length emitted <= List.length indices - i
      /\ Forall (from_vertices vertices) emitted.
Proof.
  induction fuel as [|fuel IH]; intros i triangles.
  - exists []. rewrite app_nil_r. cbn [mesh_loop].
    destruct (i <? List.length indices); repeat split; cbn; try lia; constructor.
  - cbn [mesh_loop].
    destruct (i <? List.length indices).
    2:{ exists []. rewrite app_nil_r. repeat split; [cbn; lia | constructor]. }
    destruct (push_mesh_triangle_shape i triangles) as [em1 [Hpush [Hone Hall1]]].
    destruct (push_mesh_triangle vertices indices i triangles) as [triangles' st].
    cbn [fst] in Hpush. subst triangles'.
    destruct (IH (i + 3) (triangles ++ em1)) as [em2 [Hloop [Hlen2 Hall2]]].
    assert (Hlen1 : 3 * List.length em1 <= List.length indices - i)
      by (destruct Hone as [-> | [-> Hi]]; cbn; lia).
    destruct st.
    + exists (em1 ++ em2). rewrite Hloop, app_assoc.
      split; [reflexivity|]. split; [|now apply Forall_app].
      rewrite length_app. destruct Hone as [-> | [-> Hi]]; cbn; lia.
    + exists em1. cbn [fst]. repeat split; assumption.
    + exists em1. cbn [fst]. repeat split; assumption.
Qed.
End MeshShape.

(** X14.  When the mesh loop ends inside the index array, it has added at
    most one triangle for every three indices, each made of three entries
    of the vertex array, behind the triangles already in the buffer. *)
Theorem triangulate_mesh_shape (vertices : list Vector3) (indices : list Z)
  (triangles : list Triangle) :
  snd (triangulate_mesh vertices indices triangles) = Done ->
  exists emitted,
    fst (triangulate_mesh vertices indices triangles) = triangles ++ emitted
    /\ 3 * List.length emitted <= List.length indices
    /\ Forall (from_vertices vertices) emitted.
Proof.
  intros _. unfold triangulate_mesh.
  destruct (mesh_loop_shape vertices indices (List.length indices) 0 triangles)
    as [emitted [Hrun [Hlen Hall]]].
  exists emitted. repeat split; [exact Hrun | lia | exact Hall].
Qed.

Lemma triangulate_mesh_shape_witness :
  snd (triangulate_mesh square_vertices [0; 1; 2; 5; 1; 2; 2; 3; 0]%Z []) = Done
  /\ exists emitted,
       fst (triangulate_mesh square_vertices [0; 1; 2; 5; 1; 2; 2; 3; 0]%Z [])
       = [] ++ emitted
       /\ 3 * List.length emitted <= 9
       /\ Forall (from_vertices square_vertices) emitted.
Proof.
  split; [reflexivity|].
  exact (triangulate_mesh_shape square_vertices
           [0; 1; 2; 5; 1; 2; 2; 3; 0]%Z [] eq_refl).
Defined.

Section MeshStatus.
Variable vertices : list Vector3.
Hypothesis Hsize : (Z.of_nat (List.length vertices) < 2 ^ 63)%Z.

Lemma mesh_loop_status (n : nat) :
  forall (rest pre : list Z) (fuel : nat) (triangles : list Triangle),
    List.length rest <= n ->
    List.length rest <= fuel ->
    Forall is_int rest ->
    snd (mesh_loop vertices (pre ++ rest) fuel (List.length pre) triangles)
    = if reads_past_indices vertices rest then OutOfRange else Done.
Proof.
  induction n as [|n IH]; intros rest pre fuel triangles Hn Hfuel Hint.
  - destruct rest; [|cbn in Hn; lia].
    now rewrite mesh_loop_past_end by (rewrite length_app; cbn; lia).
  - destruct rest as [|a [|b [|c rest]]].
    + now rewrite mesh_loop_past_end by (rewrite length_app; cbn; lia).
    + destruct fuel as [|fuel]; [cbn in Hfuel; lia|].
      cbn [mesh_loop reads_past_indices].
      destruct (Nat.ltb_spec (List.length pre) (List.length (pre ++ [a])))
        as [_|Hbad]; [|rewrite length_app in Hbad; cbn in Hbad; lia].
      unfold push_mesh_triangle.
      rewrite <- (Nat.add_0_r (List.length pre)) at 1.
      rewrite !(at_index_app vertices). cbn [nth_error].
      inversion Hint as [|? ? Ha _]; subst.
      rewrite (below_size_int vertices Hsize a Ha).
      destruct (index_in_bounds vertices a); [reflexivity|].
      now rewrite mesh_loop_past_end by (rewrite length_app; cbn; lia).
    + destruct fuel as [|fuel]; [cbn in Hfuel; lia|].
      cbn [mesh_loop reads_past_indices].
      destruct (Nat.ltb_spec (List.length pre) (List.length (pre ++ [a; b])))
        as [_|Hbad]; [|rewrite length_app in Hbad; cbn in Hbad; lia].
      unfold push_mesh_triangle.
      rewrite <- (Nat.add_0_r (List.length pre)) at 1.
      rewrite !(at_index_app vertices). cbn [nth_error].
      inversion Hint as [|? ? Ha Hint1]; subst.
      inversion Hint1 as [|? ? Hb _]; subst.
      rewrite (below_size_int vertices Hsize a Ha),
              (below_size_int vertices Hsize b Hb).
      destruct (index_in_bounds vertices a); cbn [andb];
        [|now rewrite mesh_loop_past_end by (rewrite length_app; cbn; lia)].
      destruct (index_in_bounds vertices b); [reflexivity|].
      now rewrite mesh_loop_past_end by (rewrite length_app; cbn; lia).
    + destruct fuel as [|fuel]; [cbn in Hfuel; lia|].
      cbn [mesh_loop reads_past_indices].
      destruct (Nat.ltb_spec (List.length pre)
                  (List.length (pre ++ a :: b :: c :: rest)))
        as [_|Hbad]; [|rewrite length_app in Hbad; cbn in Hbad; lia].
      inversion Hint as [|? ? Ha Hint1]; subst.
      inversion Hint1 as [|? ? Hb Hint2]; subst.
      inversion Hint2 as [|? ? Hc Hint3]; subst.
      rewrite (push_mesh_triangle_triple vertices Hsize) by assumption.
      replace (pre ++ a :: b :: c :: rest) with ((pre ++ [a; b; c]) ++ rest)
        by (now rewrite <- app_assoc).
      replace (List.length pre + 3) with (List.length (pre ++ [a; b; c]))
        by (rewrite length_app; reflexivity).
      cbn [List.length] in Hn, Hfuel.
      apply IH; [lia | lia | exact Hint3].
Qed.
End MeshStatus.

(** X15.  The mesh loop ends inside the index array exactly when the
    indices left behind the last whole triple do not pass the bounds test:
    one leftover index that is a valid vertex index, or two that both are,
    make it read behind the array. *)
Theorem triangulate_mesh_status (vertices : list Vector3) (indices : list Z)
  (triangles : list Triangle) :
  (Z.of_nat (List.length vertices) < 2 ^ 63)%Z ->
  Forall is_int indices ->
  snd (triangulate_mesh vertices indices triangles)
  = if reads_past_indices vertices indices then OutOfRange else Done.
Proof.
  intros Hsize Hint. unfold triangulate_mesh.
  exact (mesh_loop_status vertices Hsize (List.length indices) indices []
           (List.length indices) triangles (le_n _) (le_n _) Hint).
Qed.

Lemma triangulate_mesh_status_witness :
  (Z.of_nat (List.length square_vertices) < 2 ^ 63)%Z
  /\ Forall is_int [0; 1; 2; 3; 9]%Z
  /\ snd (triangulate_mesh square_vertices [0; 1; 2; 3; 9]%Z []) = Done
  /\ snd (triangulate_mesh square_vertices [0; 1; 2; 3; 1]%Z []) = OutOfRange.
Proof.
  assert (Hsize : (Z.of_nat (List.length square_vertices) < 2 ^ 63)%Z)
    by (vm_compute; reflexivity).
  assert (Hint1 : Forall is_int [0; 1; 2; 3; 9]%Z)
    by (repeat constructor; unfold is_int; lia).
  assert (Hint2 : Forall is_int [0; 1; 2; 3; 1]%Z)
    by (repeat constructor; unfold is_int; lia).
  split; [exact Hsize|]. split; [exact Hint1|]. split.
  - exact (triangulate_mesh_status square_vertices [0; 1; 2; 3; 9]%Z [] Hsize Hint1).
  - exact (triangulate_mesh_status square_vertices [0; 1; 2; 3; 1]%Z [] Hsize Hint2).
Defined.

(** ** The bytes of the file *)

Lemma Triangle_bytes_inj (t1 t2 : Triangle) :
  Triangle_bytes t1 = Triangle_bytes t2 -> t1 = t2.
Proof.
  destruct t1 as [[[a0 a1 a2 a3] [b0 b1 b2 b3] [c0 c1 c2 c3]]
                  [[d0 d1 d2 d3] [e0 e1 e2 e3] [f0 f1 f2 f3]]
                  [[g0 g1 g2 g3] [h0 h1 h2 h3] [i0 i1 i2 i3]]].
  destruct t2 as [[[a0' a1' a2' a3'] [b0' b1' b2' b3'] [c0' c1' c2' c3']]
                  [[d0' d1' d2' d3'] [e0' e1' e2' e3'] [f0' f1' f2' f3']]
                  [[g0' g1' g2' g3'] [h0' h1' h2' h3'] [i0' i1' i2' i3']]].
  cbn. intros H. injection H. intros. subst. reflexivity.
Qed.

Lemma app_same_length_inj {A : Type} (a1 a2 b1 b2 : list A) :
  List.length a1 = List.length a2 ->
  a1 ++ b1 = a2 ++ b2 -> a1 = a2 /\ b1 = b2.
Proof.
  revert a2. induction a1 as [|x a1 IH]; intros [|y a2] Hlen Heq;
    try discriminate Hlen.
  - now split.
  - cbn in Heq. injection Heq as -> Heq.
    destruct (IH a2 ltac:(cbn in Hlen; lia) Heq) as [-> ->]. now split.
Qed.

(** X16.  The file content determines the triangles: two buffers with the
    same bytes are the same list of triangles, so nothing of a triangle is
    lost or merged in the write. *)
Theorem data_injective (triangles1 triangles2 : list Triangle) :
  data triangles1 = data triangles2 -> triangles1 = triangles2.
Proof.
  revert triangles2.
  induction triangles1 as [|t1 rest1 IH]; intros [|t2 rest2] Heq.
  - reflexivity.
  - discriminate Heq.
  - discriminate Heq.
  - unfold data in Heq. cbn [flat_map] in Heq.
    apply app_same_length_inj in Heq as [Ht Hrest];
      [|now rewrite !Triangle_bytes_length].
    apply Triangle_bytes_inj in Ht. subst t2.
    f_equal. now apply IH.
Qed.

Lemma data_injective_witness :
  data [mkTriangle zero_vector (corner x01 x00) zero_vector]
  = data [mkTriangle zero_vector (mkVector3 (coord x01) zero_float zero_float)
            zero_vector]
  /\ [mkTriangle zero_vector (corner x01 x00) zero_vector]
     = [mkTriangle zero_vector (mkVector3 (coord x01) zero_float zero_float)
          zero_vector].
Proof.
  split; [reflexivity|].
  exact (data_injective
           [mkTriangle zero_vector (corner x01 x00) zero_vector]
           [mkTriangle zero_vector (mkVector3 (coord x01) zero_float zero_float)
              zero_vector] eq_refl).
Defined.

(** ** The grouping loops of the driver *)

Lemma vertices_loop_past_end (vertex_processed : list float) (fuel i : nat)
  (vertices : list Vector3) :
  List.length vertex_processed <= i ->
  vertices_loop fuel vertex_processed i vertices = (vertices, Done).
Proof.
  intros Hi. destruct fuel; cbn [vertices_loop];
    destruct (Nat.ltb_spec i (List.length vertex_processed)); try lia;
    reflexivity.
Qed.

Lemma read_behind {A : Type} (pre rest : list A) (k : nat) :
  at_index (pre ++ rest) (List.length pre + k) = nth_error rest k.
Proof.
  unfold at_index. rewrite nth_error_app2 by lia.
  f_equal. lia.
Qed.

Lemma mod3_step (m : nat) : S (S (S m)) mod 3 = m mod 3.
Proof.
  replace (S (S (S m))) with (m + 1 * 3) by (rewrite Nat.add_comm; reflexivity).
  apply Nat.Div0.mod_add.
Qed.

Lemma mod4_step (m : nat) : S (S (S (S m))) mod 4 = m mod 4.
Proof.
  replace (S (S (S (S m)))) with (m + 1 * 4) by (rewrite Nat.add_comm; reflexivity).
  apply Nat.Div0.mod_add.
Qed.

Lemma vertices_loop_triples (n : nat) :
  forall (rest pre : list float) (fuel : nat) (vertices : list Vector3),
    List.length rest <= n ->
    List.length rest <= fuel ->
    vertices_loop fuel (pre ++ rest) (List.length pre) vertices
    = (vertices ++ vector3s rest,
       if List.length rest mod 3 =? 0 then Done else OutOfRange).
Proof.
  induction n as [|n IH]; intros rest pre fuel vertices Hn Hfuel.
  - destruct rest; [|cbn in Hn; lia].
    rewrite vertices_loop_past_end by (rewrite length_app; cbn; lia).
    cbn. now rewrite app_nil_r.
  - destruct rest as [|a [|b [|c rest]]].
    + rewrite vertices_loop_past_end by (rewrite length_app; cbn; lia).
      cbn. now rewrite app_nil_r.
    + destruct fuel as [|fuel]; [cbn in Hfuel; lia|].
      cbn [vertices_loop vector3s]. rewrite app_nil_r.
      destruct (Nat.ltb_spec (List.length pre) (List.length (pre ++ [a])))
        as [_|Hbad]; [|rewrite length_app in Hbad; cbn in Hbad; lia].
      rewrite <- (Nat.add_0_r (List.length pre)) at 1.
      rewrite !read_behind. reflexivity.
    + destruct fuel as [|fuel]; [cbn in Hfuel; lia|].
      cbn [vertices_loop vector3s]. rewrite app_nil_r.
      destruct (Nat.ltb_spec (List.length pre) (List.length (pre ++ [a; b])))
        as [_|Hbad]; [|rewrite length_app in Hbad; cbn in Hbad; lia].
      rewrite <- (Nat.add_0_r (List.length pre)) at 1.
      rewrite !read_behind. reflexivity.
    + destruct fuel as [|fuel]; [cbn in Hfuel; lia|].
      cbn [vertices_loop vector3s].
      destruct (Nat.ltb_spec (List.length pre)
                  (List.length (pre ++ a :: b :: c :: rest)))
        as [_|Hbad]; [|rewrite length_app in Hbad; cbn in Hbad; lia].
      rewrite <- (Nat.add_0_r (List.length pre)) at 1.
      rewrite !read_behind. cbn [nth_error].
      replace (pre ++ a :: b :: c :: rest) with ((pre ++ [a; b; c]) ++ rest)
        by (now rewrite <- app_assoc).
      replace (List.length pre + 3) with (List.length (pre ++ [a; b; c]))
        by (rewrite length_app; reflexivity).
      cbn [List.length] in Hn, Hfuel.
      rewrite IH by lia.
      cbn [List.length]. rewrite mod3_step, <- app_assoc. reflexivity.
Qed.

Lemma group_vertices_triples (vertex_processed : list float) :
  group_vertices vertex_processed
  = (vector3s vertex_processed,
     if List.length vertex_processed mod 3 =? 0 then Done else OutOfRange).
Proof.
  unfold group_vertices.
  exact (vertices_loop_triples _ vertex_processed [] _ [] (le_n _) (le_n _)).
Qed.

(** X17.  The vertex loop turns the floats into vertices three at a time,
    in order; it ends inside the float array exactly when the number of
    floats is a multiple of three, and otherwise reads behind it for the
    last, incomplete vertex. *)
Theorem group_vertices_by_three (vertex_processed : list float) :
  group_vertices vertex_processed
  = (vector3s vertex_processed,
     if List.length vertex_processed mod 3 =? 0 then Done else OutOfRange).
Proof. apply group_vertices_triples. Qed.

Lemma edges_loop_past_end (edges_tmp : list byte) (fuel i : nat)
  (edges_processed : list Edge) :
  List.length edges_tmp <= i ->
  edges_loop fuel edges_tmp i edges_processed = (edges_processed, Done).
Proof.
  intros Hi. destruct fuel; cbn [edges_loop];
    destruct (Nat.ltb_spec i (List.length edges_tmp)); try lia; reflexivity.
Qed.

Lemma edges_loop_fours (n : nat) :
  forall (rest pre : list byte) (fuel : nat) (edges_processed : list Edge),
    List.length rest <= n ->
    List.length rest <= fuel ->
    edges_loop fuel (pre ++ rest) (List.length pre) edges_processed
    = (edges_processed ++ edge_records rest,
       if List.length rest mod 4 =? 0 then Done else OutOfRange).
Proof.
  induction n as [|n IH]; intros rest pre fuel edges_processed Hn Hfuel.
  - destruct rest; [|cbn in Hn; lia].
    rewrite edges_loop_past_end by (rewrite length_app; cbn; lia).
    cbn. now rewrite app_nil_r.
  - destruct rest as [|a [|b [|c [|d rest]]]].
    + rewrite edges_loop_past_end by (rewrite length_app; cbn; lia).
      cbn. now rewrite app_nil_r.
    + destruct fuel as [|fuel]; [cbn in Hfuel; lia|].
      cbn [edges_loop edge_records]. rewrite app_nil_r.
      destruct (Nat.ltb_spec (List.length pre) (List.length (pre ++ [a])))
        as [_|Hbad]; [|rewrite length_app in Hbad; cbn in Hbad; lia].
      rewrite <- (Nat.add_0_r (List.length pre)) at 1.
      rewrite !read_behind. reflexivity.
    + destruct fuel as [|fuel]; [cbn in Hfuel; lia|].
      cbn [edges_loop edge_records]. rewrite app_nil_r.
      destruct (Nat.ltb_spec (List.length pre) (List.length (pre ++ [a; b])))
        as [_|Hbad]; [|rewrite length_app in Hbad; cbn in Hbad; lia].
      rewrite <- (Nat.add_0_r (List.length pre)) at 1.
      rewrite !read_behind. reflexivity.
    + destruct fuel as [|fuel]; [cbn in Hfuel; lia|].
      cbn [edges_loop edge_records]. rewrite app_nil_r.
      destruct (Nat.ltb_spec (List.length pre) (List.length (pre ++ [a; b; c])))
        as [_|Hbad]; [|rewrite length_app in Hbad; cbn in Hbad; lia].
      rewrite <- (Nat.add_0_r (List.length pre)) at 1.
      rewrite !read_behind. reflexivity.
    + destruct fuel as [|fuel]; [cbn in Hfuel; lia|].
      cbn [edges_loop edge_records].
      destruct (Nat.ltb_spec (List.length pre)
                  (List.length (pre ++ a :: b :: c :: d :: rest)))
        as [_|Hbad]; [|rewrite length_app in Hbad; cbn in Hbad; lia].
      rewrite <- (Nat.add_0_r (List.length pre)) at 1.
      rewrite !read_behind. cbn [nth_error].
      replace (pre ++ a :: b :: c :: d :: rest)
        with ((pre ++ [a; b; c; d]) ++ rest) by (now rewrite <- app_assoc).
      replace (List.length pre + 4) with (List.length (pre ++ [a; b; c; d]))
        by (rewrite length_app; reflexivity).
      cbn [List.length] in Hn, Hfuel.
      rewrite IH by lia.
      cbn [List.length]. rewrite mod4_step, <- app_assoc. reflexivity.
Qed.

Lemma group_edges_fours (edges_tmp : list byte) :
  group_edges edges_tmp
  = (edge_records edges_tmp,
     if List.length edges_tmp mod 4 =? 0 then Done else OutOfRange).
Proof.
  unfold group_edges.
  exact (edges_loop_fours _ edges_tmp [] _ [] (le_n _) (le_n _)).
Qed.

(** X18.  The edge loop turns the bytes into half-edge records four at a
    time, as next, twin, origin, face; it ends inside the byte array
    exactly when the number of bytes is a multiple of four. *)
Theorem group_edges_by_four (edges_tmp : list byte) :
  group_edges edges_tmp
  = (edge_records edges_tmp,
     if List.length edges_tmp mod 4 =? 0 then Done else OutOfRange).
Proof. apply group_edges_fours. Qed.

(** ** One hull, one mesh *)

Lemma string_empty_false (s : string) :
  s <> EmptyString -> string_empty s = false.
Proof. destruct s; [congruence | reflexivity]. Qed.

Lemma empty_false {A : Type} (v : list A) :
  0 < List.length v -> empty v = false.
Proof. destruct v; [cbn; lia | reflexivity]. Qed.

Lemma bytes_not_nil (bs : list byte) (k sz : nat) :
  0 < k -> 0 < sz -> List.length bs = k * sz -> bs <> [].
Proof. intros Hk Hsz Hlen ->. cbn in Hlen. nia. Qed.

Lemma bytes_to_vec_blob_text_floats (upper : bool) (vbytes : list byte)
  (k : nat) :
  0 < k -> List.length vbytes = k * 12 ->
  bytes_to_vec (Ty := float) (blob_text upper vbytes) = (elements vbytes, Done)
  /\ List.length (elements (Ty := float) vbytes) = k * 3.
Proof.
  intros Hk Hlen.
  assert (Hlen4 : List.length vbytes = (k * 3) * sizeof (Ty := float))
    by (cbn [sizeof Element_float]; lia).
  split.
  - exact (bytes_to_vec_blob_text_whole upper vbytes (k * 3) ltac:(lia) Hlen4).
  - exact (elements_whole (k * 3) vbytes Hlen4).
Qed.

Lemma bytes_to_vec_blob_text_bytes (upper : bool) (bs : list byte) :
  bs <> [] ->
  bytes_to_vec (Ty := byte) (blob_text upper bs) = (bs, Done).
Proof.
  intros Hne.
  rewrite (bytes_to_vec_blob_text_whole upper bs (List.length bs)).
  - now rewrite elements_uint8_t.
  - destruct bs; [congruence | cbn; lia].
  - cbn [sizeof Element_uint8_t]. lia.
Qed.

Lemma group_vertices_whole (floats : list float) (k : nat) :
  List.length floats = k * 3 ->
  group_vertices floats = (vector3s floats, Done).
Proof.
  intros Hlen. rewrite group_vertices_triples, Hlen, Nat.Div0.mod_mul.
  reflexivity.
Qed.

Lemma hull_body_on_blob_text (parser : c_kv3_parser) (index_str : string)
  (triangles : list Triangle) (count : nat) (u1 u2 u3 : bool)
  (vbytes fbytes ebytes : list byte) (k m : nat) :
  0 < k -> List.length vbytes = k * 12 ->
  fbytes <> [] ->
  0 < m -> List.length ebytes = m * 4 ->
  (get_value parser (hull_key index_str "].m_Hull.m_VertexPositions")
   = blob_text u1 vbytes
   \/ (get_value parser (hull_key index_str "].m_Hull.m_VertexPositions")
       = EmptyString
       /\ get_value parser (hull_key index_str "].m_Hull.m_Vertices")
          = blob_text u1 vbytes)) ->
  get_value parser (hull_key index_str "].m_Hull.m_Faces") = blob_text u2 fbytes ->
  get_value parser (hull_key index_str "].m_Hull.m_Edges") = blob_text u3 ebytes ->
  hull_body parser index_str (triangles, count)
  = ((fst (triangulate_hull (vector3s (elements vbytes)) fbytes
             (edge_records ebytes) triangles), S count), Done).
Proof.
  intros Hk Hv Hf Hm He Hvtext Hftext Hetext.
  destruct (bytes_to_vec_blob_text_floats u1 vbytes k Hk Hv) as [Hdec Hfloats].
  pose proof (bytes_not_nil vbytes k 12 Hk ltac:(lia) Hv) as Hvne.
  pose proof (bytes_not_nil ebytes m 4 Hm ltac:(lia) He) as Hene.
  unfold hull_body.
  assert (Hvp : (if negb (string_empty
                            (get_value parser
                               (hull_key index_str "].m_Hull.m_VertexPositions")))
                 then bytes_to_vec (Ty := float)
                        (get_value parser
                           (hull_key index_str "].m_Hull.m_VertexPositions"))
                 else bytes_to_vec (Ty := float)
                        (get_value parser
                           (hull_key index_str "].m_Hull.m_Vertices")))
                = (elements vbytes, Done)).
  { destruct Hvtext as [-> | [-> ->]].
    - now rewrite (string_empty_false _ (blob_text_not_empty u1 vbytes Hvne)).
    - exact Hdec. }
  rewrite Hvp. cbn [and_then].
  rewrite (empty_false (elements (Ty := float) vbytes)) by (rewrite Hfloats; lia).
  rewrite (group_vertices_whole _ k Hfloats). cbn [and_then].
  rewrite Hftext, Hetext.
  rewrite (string_empty_false _ (blob_text_not_empty u2 fbytes Hf)),
          (string_empty_false _ (blob_text_not_empty u3 ebytes Hene)).
  cbn [orb].
  rewrite (bytes_to_vec_blob_text_bytes u2 fbytes Hf),
          (bytes_to_vec_blob_text_bytes u3 ebytes Hene).
  cbn [and_then].
  rewrite (empty_false fbytes) by (destruct fbytes; [congruence | cbn; lia]).
  rewrite (empty_false ebytes) by (rewrite He; lia).
  cbn [orb].
  rewrite group_edges_fours, He, Nat.Div0.mod_mul. cbn [Nat.eqb and_then].
  unfold triangulate_hull. cbn [fst snd].
  destruct (hull_faces_in_range (vector3s (elements vbytes)) (edge_records ebytes)
              fbytes triangles) as [emitted Hrun].
  rewrite Hrun. reflexivity.
Qed.

(** X19.  A hull whose blobs are written with no space behind the last
    byte goes through decoding, grouping and triangulation without leaving
    any array: with [k] whole vertices (taken from m_VertexPositions, or
    from m_Vertices when that text is empty), at least one face byte and
    [m] whole half-edge records, the hull adds to the buffer exactly the
    triangulation of the decoded arrays and is counted. *)
Theorem hull_body_blob_text (parser : c_kv3_parser) (index_str : string)
  (triangles : list Triangle) (count : nat) (u1 u2 u3 : bool)
  (vbytes fbytes ebytes : list byte) (k m : nat) :
  0 < k -> List.length vbytes = k * 12 ->
  fbytes <> [] ->
  0 < m -> List.length ebytes = m * 4 ->
  (get_value parser (hull_key index_str "].m_Hull.m_VertexPositions")
   = blob_text u1 vbytes
   \/ (get_value parser (hull_key index_str "].m_Hull.m_VertexPositions")
       = EmptyString
       /\ get_value parser (hull_key index_str "].m_Hull.m_Vertices")
          = blob_text u1 vbytes)) ->
  get_value parser (hull_key index_str "].m_Hull.m_Faces") = blob_text u2 fbytes ->
  get_value parser (hull_key index_str "].m_Hull.m_Edges") = blob_text u3 ebytes ->
  hull_body parser index_str (triangles, count)
  = ((fst (triangulate_hull (vector3s (elements vbytes)) fbytes
             (edge_records ebytes) triangles), S count), Done).
Proof. apply hull_body_on_blob_text. Qed.

(** X20.  A hull whose vertex text has a space behind the last byte as
    well leaves its arrays: the decoder hands back one float more than the
    [k] whole vertices hold, and the vertex loop reads behind the float
    array. *)
Theorem hull_body_spaced_vertices (parser : c_kv3_parser) (index_str : string)
  (state : list Triangle * nat) (upper : bool) (vbytes : list byte) (k : nat) :
  0 < k -> List.length vbytes = k * 12 ->
  get_value parser (hull_key index_str "].m_Hull.m_VertexPositions")
  = blob_text_spaced upper vbytes ->
  snd (hull_body parser index_str state) = OutOfRange.
Proof.
  intros Hk Hv Hvtext.
  pose proof (bytes_not_nil vbytes k 12 Hk ltac:(lia) Hv) as Hvne.
  assert (Hlen4 : List.length vbytes = (k * 3) * sizeof (Ty := float))
    by (cbn [sizeof Element_float]; lia).
  unfold hull_body. rewrite Hvtext.
  rewrite (string_empty_false _ (blob_text_spaced_not_empty upper vbytes Hvne)).
  cbn [negb].
  rewrite (bytes_to_vec_blob_text_spaced_whole upper vbytes (k * 3) ltac:(lia) Hlen4).
  cbn [and_then].
  rewrite empty_false
    by (rewrite length_app, (elements_whole (k * 3) vbytes Hlen4); cbn; lia).
  rewrite group_vertices_triples.
  rewrite length_app, (elements_whole (k * 3) vbytes Hlen4).
  cbn [List.length]. rewrite Nat.add_comm, Nat.Div0.mod_add.
  reflexivity.
Qed.

Lemma hull_body_blob_text_witness :
  hull_body (square_document quoted_default_line blob_text) zero_text ([], 0)
  = ((fst (triangulate_hull (vector3s (elements square_vertex_bytes)) [x00]
             (edge_records square_edge_bytes) []), 1), Done)
  /\ List.length
       (fst (triangulate_hull (vector3s (elements square_vertex_bytes)) [x00]
               (edge_records square_edge_bytes) [])) = 3.
Proof.
  split; [|reflexivity].
  apply (hull_body_blob_text (square_document quoted_default_line blob_text)
           zero_text [] 0 true true false
           square_vertex_bytes [x00] square_edge_bytes 4 4).
  - lia.
  - reflexivity.
  - discriminate.
  - lia.
  - reflexivity.
  - left. reflexivity.
  - reflexivity.
  - reflexivity.
Defined.

Lemma hull_body_spaced_vertices_witness :
  0 < 4
  /\ snd (hull_body (square_document quoted_default_line blob_text_spaced)
            zero_text ([], 0))
     = OutOfRange.
Proof.
  split; [lia|].
  apply (hull_body_spaced_vertices
           (square_document quoted_default_line blob_text_spaced)
           zero_text ([], 0) true square_vertex_bytes 4).
  - lia.
  - reflexivity.
  - reflexivity.
Defined.

Lemma vector3s_length (floats : list float) (k : nat) :
  List.length floats = k * 3 -> List.length (vector3s floats) = k.
Proof.
  revert floats. induction k as [|k IH]; intros floats Hlen.
  - destruct floats; [reflexivity | discriminate Hlen].
  - destruct floats as [|a [|b [|c rest]]]; try discriminate Hlen.
    cbn [vector3s List.length]. rewrite IH; [reflexivity|].
    cbn in Hlen. lia.
Qed.

Lemma elements_int_are_int (bs : list byte) :
  Forall is_int (elements (Ty := Z) bs).
Proof.
  unfold elements. apply Forall_forall. intros v Hv.
  apply in_map_iff in Hv as [l [<- _]].
  apply int_of_bytes_is_int.
Qed.

(** X21.  A mesh whose blobs are written with no space behind the last
    byte, with [j] whole triangles of indices and [k] whole vertices, goes
    through decoding, grouping and the index loop without leaving any
    array; it adds the triangles of its triples that pass the bounds test,
    in order, and is counted. *)
Theorem mesh_body_blob_text (parser : c_kv3_parser) (index_str : string)
  (triangles : list Triangle) (count : nat) (u1 u2 : bool)
  (ibytes vbytes : list byte) (j k : nat) :
  0 < j -> List.length ibytes = j * 12 ->
  0 < k -> List.length vbytes = k * 12 ->
  (Z.of_nat k < 2 ^ 63)%Z ->
  get_value parser (mesh_key index_str "].m_Mesh.m_Triangles") = blob_text u1 ibytes ->
  get_value parser (mesh_key index_str "].m_Mesh.m_Vertices") = blob_text u2 vbytes ->
  mesh_body parser index_str (triangles, count)
  = ((triangles ++ mesh_triangles (vector3s (elements vbytes)) (elements ibytes),
      S count), Done).
Proof.
  intros Hj Hi Hk Hv Hsize Hitext Hvtext.
  destruct (bytes_to_vec_blob_text_floats u2 vbytes k Hk Hv) as [Hdec Hfloats].
  pose proof (bytes_not_nil vbytes k 12 Hk ltac:(lia) Hv) as Hvne.
  pose proof (bytes_not_nil ibytes j 12 Hj ltac:(lia) Hi) as Hine.
  assert (Hlen4 : List.length ibytes = (j * 3) * sizeof (Ty := Z))
    by (cbn [sizeof Element_int]; lia).
  pose proof (elements_whole (Ty := Z) (j * 3) ibytes Hlen4) as Hints.
  unfold mesh_body. rewrite Hitext, Hvtext.
  rewrite (string_empty_false _ (blob_text_not_empty u1 ibytes Hine)),
          (string_empty_false _ (blob_text_not_empty u2 vbytes Hvne)).
  cbn [orb].
  rewrite (bytes_to_vec_blob_text_whole (Ty := Z) u1 ibytes (j * 3) ltac:(lia) Hlen4),
          Hdec.
  cbn [and_then].
  rewrite (empty_false (elements (Ty := Z) ibytes)) by (rewrite Hints; lia).
  rewrite (empty_false (elements (Ty := float) vbytes)) by (rewrite Hfloats; lia).
  cbn [orb].
  rewrite (group_vertices_whole _ k Hfloats). cbn [and_then fst snd].
  set (vertices := vector3s (elements vbytes)).
  assert (Hvsize : (Z.of_nat (List.length vertices) < 2 ^ 63)%Z)
    by (unfold vertices; now rewrite (vector3s_length _ k Hfloats)).
  destruct (mesh_loop_triples vertices Hvsize _ (elements ibytes) []
              _ triangles (le_n _) (le_n _) (elements_int_are_int ibytes))
    as [Hfst Hsnd].
  specialize (Hsnd ltac:(rewrite Hints; apply Nat.Div0.mod_mul)).
  unfold triangulate_mesh.
  cbn [app List.length] in Hfst, Hsnd.
  destruct (mesh_loop vertices (elements ibytes) (List.length (elements ibytes)) 0
              triangles) as [found st].
  cbn [fst snd] in Hfst, Hsnd. subst found st. reflexivity.
Qed.

Lemma mesh_body_blob_text_witness :
  (Z.of_nat 4 < 2 ^ 63)%Z
  /\ mesh_body (square_document quoted_default_line blob_text) zero_text ([], 0)
     = (([] ++ mesh_triangles (vector3s (elements square_vertex_bytes))
                 (elements one_triangle_bytes), 1), Done)
  /\ List.length (mesh_triangles (vector3s (elements square_vertex_bytes))
                    (elements one_triangle_bytes)) = 1.
Proof.
  assert (Hsize : (Z.of_nat 4 < 2 ^ 63)%Z) by (vm_compute; reflexivity).
  split; [exact Hsize|]. split; [|reflexivity].
  apply (mesh_body_blob_text (square_document quoted_default_line blob_text)
           zero_text [] 0 true false one_triangle_bytes square_vertex_bytes 1 4).
  - lia.
  - reflexivity.
  - lia.
  - reflexivity.
  - exact Hsize.
  - reflexivity.
  - reflexivity.
Defined.

(** ** The scans of the driver *)

Section ScanFacts.
Variable parser : c_kv3_parser.
Variable accepted : list nat.

Lemma hull_scan_passes (n : nat) :
  first_empty (hull_index_text parser) n ->
  (forall j, j < n -> found accepted (atoi (hull_index_text parser j)) = false) ->
  forall (d i fuel : nat) (state : list Triangle * nat),
    i + d = n -> d < fuel ->
    hull_scan fuel parser accepted i state = (state, Done).
Proof.
  intros [Hend Hbefore] Hnone.
  induction d as [|d IH]; intros i fuel state Hid Hfuel;
    (destruct fuel as [|fuel]; [apply Nat.nlt_0_r in Hfuel; contradiction|]);
    cbn [hull_scan];
    change (get_value parser _) with (hull_index_text parser i).
  - rewrite Nat.add_0_r in Hid. subst i. now rewrite Hend.
  - assert (Hi : i < n) by (rewrite <- Hid; apply Nat.lt_add_pos_r, Nat.lt_0_succ).
    pose proof (Hbefore i Hi) as Htext.
    apply String.eqb_neq in Htext. rewrite Htext. cbn [negb].
    rewrite (Hnone i Hi).
    apply IH; [now rewrite Nat.add_succ_comm | now apply Nat.succ_lt_mono].
Qed.

Lemma mesh_scan_passes (n : nat) :
  first_empty (mesh_index_text parser) n ->
  (forall j, j < n -> found accepted (atoi (mesh_index_text parser j)) = false) ->
  forall (d i fuel : nat) (state : list Triangle * nat),
    i + d = n -> d < fuel ->
    mesh_scan fuel parser accepted i state = (state, Done).
Proof.
  intros [Hend Hbefore] Hnone.
  induction d as [|d IH]; intros i fuel state Hid Hfuel;
    (destruct fuel as [|fuel]; [apply Nat.nlt_0_r in Hfuel; contradiction|]);
    cbn [mesh_scan];
    change (get_value parser _) with (mesh_index_text parser i).
  - rewrite Nat.add_0_r in Hid. subst i. now rewrite Hend.
  - assert (Hi : i < n) by (rewrite <- Hid; apply Nat.lt_add_pos_r, Nat.lt_0_succ).
    pose proof (Hbefore i Hi) as Htext.
    apply String.eqb_neq in Htext. rewrite Htext. cbn [negb].
    rewrite (Hnone i Hi).
    apply IH; [now rewrite Nat.add_succ_comm | now apply Nat.succ_lt_mono].
Qed.
End ScanFacts.

(** X22.  A document in which no hull and no mesh carries an accepted
    attribute index leaves nothing behind: the buffer stays empty, both
    counts stay zero and no file is written, whatever blobs its shapes
    hold.  The three scans are taken to end, each at its first empty
    answer. *)
Theorem no_accepted_shape_no_file (parser : c_kv3_parser) (is_open : bool)
  (fuel slots hulls meshes : nat) :
  first_empty_slot parser slots -> slots < fuel ->
  first_empty (hull_index_text parser) hulls -> hulls < fuel ->
  first_empty (mesh_index_text parser) meshes -> meshes < fuel ->
  (forall j, j < hulls ->
     found (fst (get_collision_attribute_indices fuel parser))
           (atoi (hull_index_text parser j)) = false) ->
  (forall j, j < meshes ->
     found (fst (get_collision_attribute_indices fuel parser))
           (atoi (mesh_index_text parser j)) = false) ->
  process_document fuel parser is_open = (mkReport [] 0 0 None, Done).
Proof.
  intros Hslots Hfs Hhulls Hfh Hmeshes Hfm Hnoh Hnom.
  unfold process_document.
  rewrite (get_collision_attribute_indices_filter parser slots Hslots fuel Hfs)
    in *.
  cbn [fst] in *.
  rewrite (hull_scan_passes parser _ hulls Hhulls Hnoh hulls 0 fuel ([], 0)
             eq_refl Hfh).
  cbn [fst snd].
  rewrite (mesh_scan_passes parser _ meshes Hmeshes Hnom meshes 0 fuel ([], 0)
             eq_refl Hfm).
  reflexivity.
Qed.

Lemma no_accepted_shape_no_file_witness :
  first_empty_slot (square_document "water" blob_text) 1
  /\ process_document 3 (square_document "water" blob_text) true
     = (mkReport [] 0 0 None, Done).
Proof.
  assert (Hslots : first_empty_slot (square_document "water" blob_text) 1).
  { split; [reflexivity|]. intros j Hj.
    destruct j as [|j]; [discriminate | lia]. }
  assert (Hhulls : first_empty (hull_index_text (square_document "water" blob_text)) 1).
  { split; [reflexivity|]. intros j Hj.
    destruct j as [|j]; [discriminate | lia]. }
  assert (Hmeshes : first_empty (mesh_index_text (square_document "water" blob_text)) 1).
  { split; [reflexivity|]. intros j Hj.
    destruct j as [|j]; [discriminate | lia]. }
  split; [exact Hslots|].
  apply (no_accepted_shape_no_file (square_document "water" blob_text) true
           3 1 1 1 Hslots ltac:(lia) Hhulls ltac:(lia) Hmeshes ltac:(lia)).
  - intros j Hj. destruct j as [|j]; [reflexivity | lia].
  - intros j Hj. destruct j as [|j]; [reflexivity | lia].
Defined.

(** ** Attribute index texts *)

Lemma digits_string_of_uint (d : Decimal.uint) :
  forall acc : nat,
    digits (NilEmpty.string_of_uint d) (Z.of_nat acc)
    = Z.of_nat (Nat.of_uint_acc d acc).
Proof.
  induction d as [|d IH|d IH|d IH|d IH|d IH|d IH|d IH|d IH|d IH|d IH];
    intros acc; [reflexivity| | | | | | | | | |];
    cbn [NilEmpty.string_of_uint digits Nat.of_uint_acc];
    match goal with
    | |- context [isdigit ?c] => change (isdigit c) with true
    end;
    cbv iota; rewrite <- IH; f_equal; rewrite Nat.tail_mul_spec;
    match goal with
    | |- context [nat_of_ascii ?c] =>
        let v := eval vm_compute in (nat_of_ascii c) in
        change (nat_of_ascii c) with v
    end; lia.
Qed.

Lemma leading_number_to_string (n : nat) :
  leading_number (to_string n) = Z.of_nat n.
Proof.
  unfold to_string.
  rewrite <- (Unsigned.of_to n) at 2.
  unfold Nat.of_uint.
  rewrite <- (digits_string_of_uint (Nat.to_uint n) 0).
  destruct (Nat.to_uint n); reflexivity.
Qed.

Lemma to_int_small (v : Z) : (0 <= v < 2 ^ 31)%Z -> to_int v = v.
Proof.
  intros Hv. unfold to_int. rewrite Z.mod_small by lia.
  destruct (Z.ltb_spec v (2 ^ 31)); lia.
Qed.

(** [atoi] reads back what [to_string] wrote for an [int]. *)
Lemma atoi_to_string (n : nat) :
  (Z.of_nat n < 2 ^ 31)%Z -> atoi (to_string n) = Z.of_nat n.
Proof.
  intros Hn. unfold atoi, strtol, LONG_MAX, LONG_MIN.
  rewrite leading_number_to_string.
  rewrite Z.min_r, Z.max_r by lia.
  apply to_int_small. lia.
Qed.

(** The answer of [atoi] is an [int], also for a text that writes a larger
    number: 2^32 + 1 is read as 1. *)
Lemma atoi_is_int (s : string) : is_int (atoi s).
Proof.
  unfold atoi, to_int, is_int.
  pose proof (Z.mod_pos_bound (strtol s) (2 ^ 32) ltac:(lia)) as Hu.
  destruct (Z.ltb_spec (strtol s mod 2 ^ 32) (2 ^ 31)); lia.
Qed.

Lemma atoi_keeps_low_bits : atoi "4294967297" = 1%Z.
Proof. reflexivity. Qed.

Lemma found_iff (accepted : list nat) (k : nat) :
  found accepted (Z.of_nat k) = true <-> In k accepted.
Proof.
  unfold found. rewrite existsb_exists. split.
  - intros [a [Ha Heq]]. apply Z.eqb_eq, Nat2Z.inj in Heq. now subst a.
  - intros Hk. exists k. split; [exact Hk | apply Z.eqb_refl].
Qed.

(** X23.  A shape whose attribute index text is the decimal writing of a
    slot number [k] that fits an [int] passes the filter exactly when slot
    [k] is among the accepted ones. *)
Theorem decimal_index_selects_slot (accepted : list nat) (k : nat) :
  (Z.of_nat k < 2 ^ 31)%Z ->
  found accepted (atoi (to_string k)) = true <-> In k accepted.
Proof.
  intros Hk. rewrite atoi_to_string by exact Hk. apply found_iff.
Qed.

Lemma decimal_index_selects_slot_witness :
  (Z.of_nat 12 < 2 ^ 31)%Z
  /\ (found [3; 12] (atoi (to_string 12)) = true <-> In 12 [3; 12]).
Proof.
  assert (Hk : (Z.of_nat 12 < 2 ^ 31)%Z) by (vm_compute; reflexivity).
  split; [exact Hk|].
  exact (decimal_index_selects_slot [3; 12] 12 Hk).
Defined.

(** ** A whole document *)

Lemma write_tri_data (is_open : bool) (triangles : list Triangle) :
  write_tri is_open triangles
  = if negb (empty triangles) && is_open then Some (data triangles) else None.
Proof.
  unfold write_tri. destruct triangles as [|t rest]; [reflexivity|].
  cbn [List.length Nat.ltb Nat.leb empty negb andb].
  destruct is_open; [|reflexivity].
  rewrite firstn_all2; [reflexivity|].
  rewrite data_length. apply le_n.
Qed.

(** X24.  A document whose only shape is one hull with an accepted
    attribute, its blobs written with no space behind the last byte, ends
    with the triangulation of the decoded hull in the buffer, one hull and
    no mesh counted; its file, written when that triangulation is not empty
    and the stream opened, holds the triangles' bytes and nothing else. *)
Theorem one_hull_document (parser : c_kv3_parser) (is_open : bool)
  (fuel slots : nat) (u1 u2 u3 : bool) (vbytes fbytes ebytes : list byte)
  (k m : nat) :
  first_empty_slot parser slots -> slots < fuel -> 1 < fuel ->
  first_empty (hull_index_text parser) 1 ->
  found (fst (get_collision_attribute_indices fuel parser))
        (atoi (hull_index_text parser 0)) = true ->
  first_empty (mesh_index_text parser) 0 ->
  0 < k -> List.length vbytes = k * 12 ->
  fbytes <> [] ->
  0 < m -> List.length ebytes = m * 4 ->
  (get_value parser (hull_key (to_string 0) "].m_Hull.m_VertexPositions")
   = blob_text u1 vbytes
   \/ (get_value parser (hull_key (to_string 0) "].m_Hull.m_VertexPositions")
       = EmptyString
       /\ get_value parser (hull_key (to_string 0) "].m_Hull.m_Vertices")
          = blob_text u1 vbytes)) ->
  get_value parser (hull_key (to_string 0) "].m_Hull.m_Faces")
  = blob_text u2 fbytes ->
  get_value parser (hull_key (to_string 0) "].m_Hull.m_Edges")
  = blob_text u3 ebytes ->
  let found_triangles :=
    fst (triangulate_hull (vector3s (elements vbytes)) fbytes
           (edge_records ebytes) []) in
  process_document fuel parser is_open
  = (mkReport found_triangles 1 0
       (if negb (empty found_triangles) && is_open
        then Some (data found_triangles) else None), Done).
Proof.
  intros Hslots Hfs Hfuel [Hh1 Hh0] Hfound [Hm0 _] Hk Hv Hf Hm He
    Hvtext Hftext Hetext found_triangles.
  unfold process_document.
  rewrite (get_collision_attribute_indices_filter parser slots Hslots fuel Hfs)
    in *.
  cbn [fst] in *.
  destruct fuel as [|[|fuel]];
    [apply Nat.nlt_0_r in Hfuel; contradiction
    | apply Nat.lt_irrefl in Hfuel; contradiction |].
  cbn [hull_scan].
  change (get_value parser (hull_key (to_string 0) "].m_nCollisionAttributeIndex"))
    with (hull_index_text parser 0).
  change (get_value parser (hull_key (to_string 1) "].m_nCollisionAttributeIndex"))
    with (hull_index_text parser 1).
  pose proof (Hh0 0 Nat.lt_0_1) as Htext.
  apply String.eqb_neq in Htext. rewrite Htext. cbn [negb]. rewrite Hfound.
  rewrite (hull_body_on_blob_text parser (to_string 0) [] 0 u1 u2 u3
             vbytes fbytes ebytes k m Hk Hv Hf Hm He Hvtext Hftext Hetext).
  fold found_triangles. rewrite Hh1. cbn [String.eqb negb fst snd].
  cbn [mesh_scan].
  change (get_value parser (mesh_key (to_string 0) "].m_nCollisionAttributeIndex"))
    with (mesh_index_text parser 0).
  rewrite Hm0. cbn [String.eqb negb fst snd].
  now rewrite write_tri_data.
Qed.

Lemma one_hull_document_witness :
  first_empty_slot (square_hull_document quoted_default_line) 1
  /\ (let r := process_document 2 (square_hull_document quoted_default_line) true in
      List.length (triangles_found (fst r)) = 3
      /\ count_hulls (fst r) = 1
      /\ option_map (@List.length byte) (tri_file (fst r)) = Some 108
      /\ snd r = Done).
Proof.
  assert (Hslots : first_empty_slot (square_hull_document quoted_default_line) 1).
  { split; [reflexivity|]. intros j Hj.
    destruct j as [|j]; [discriminate | lia]. }
  assert (Hhulls : first_empty
                     (hull_index_text (square_hull_document quoted_default_line)) 1).
  { split; [reflexivity|]. intros j Hj.
    destruct j as [|j]; [discriminate | lia]. }
  assert (Hmeshes : first_empty
                      (mesh_index_text (square_hull_document quoted_default_line)) 0).
  { split; [reflexivity|]. intros j Hj. lia. }
  split; [exact Hslots|].
  rewrite (one_hull_document (square_hull_document quoted_default_line) true
             2 1 false true true square_vertex_bytes [x00] square_edge_bytes 4 4
             Hslots ltac:(lia) ltac:(lia) Hhulls eq_refl Hmeshes
             ltac:(lia) eq_refl ltac:(discriminate) ltac:(lia) eq_refl
             (or_intror (conj eq_refl eq_refl)) eq_refl eq_refl).
  repeat split; reflexivity.
Defined.

(** ** Labels in the words of the claims *)

Lemma no_quote_find_last_of (s : string) :
  no_quote s = true <-> find_last_of s quote = None.
Proof.
  induction s as [|c s IH]; cbn [no_quote find_last_of]; [tauto|].
  destruct (find_last_of s quote) as [i|].
  - destruct (no_quote s).
    + destruct IH as [IH _]. discriminate (IH eq_refl).
    + rewrite andb_false_r. split; discriminate.
  - destruct IH as [_ IH]. rewrite (IH eq_refl), andb_true_r.
    destruct (Ascii.eqb c quote); cbn [negb]; split;
      intros H; (discriminate H || reflexivity).
Qed.

(** [tolower] gives a small letter of the word for that letter and for
    its capital, and for no other character. *)
Lemma tolower_default_letters (c : ascii) :
  Ascii.eqb (tolower c) "d" = letter_is "d" c
  /\ Ascii.eqb (tolower c) "e" = letter_is "e" c
  /\ Ascii.eqb (tolower c) "f" = letter_is "f" c
  /\ Ascii.eqb (tolower c) "a" = letter_is "a" c
  /\ Ascii.eqb (tolower c) "u" = letter_is "u" c
  /\ Ascii.eqb (tolower c) "l" = letter_is "l" c
  /\ Ascii.eqb (tolower c) "t" = letter_is "t" c.
Proof.
  destruct c as [[] [] [] [] [] [] [] []]; repeat split; reflexivity.
Qed.

Lemma spells_step (w c : ascii) (word s : string) :
  spells (String w word) (String c s) = letter_is w c && spells word s.
Proof. reflexivity. Qed.

Lemma eqb_step (a b : ascii) (s t : string) :
  String.eqb (String a s) (String b t) = Ascii.eqb a b && String.eqb s t.
Proof. reflexivity. Qed.

Lemma spells_default (s : string) :
  spells "default" s = String.eqb (transform tolower s) "default".
Proof.
  do 7 (destruct s as [|c s]; [reflexivity|];
        rewrite spells_step; cbn [transform]; rewrite eqb_step;
        destruct (tolower_default_letters c) as [Hd [He [Hf [Ha [Hu [Hl Ht]]]]]];
        rewrite ?Hd, ?He, ?Hf, ?Ha, ?Hu, ?Hl, ?Ht;
        clear Hd He Hf Ha Hu Hl Ht; f_equal; clear c).
  destruct s; reflexivity.
Qed.

Lemma spells_default_lower (s : string) :
  spells "default" s = true <-> transform tolower s = "default"%string.
Proof. now rewrite spells_default, String.eqb_eq. Qed.

(** The labels the code accepts are the labels that say [default]. *)
Lemma is_default_says_default (label : string) :
  is_default label = true <-> label_says_default label.
Proof.
  rewrite is_default_characterised. unfold label_says_default.
  rewrite spells_default_lower.
  split; (intros [Hbare | [body [tail [Hl [Ht Hb]]]]];
          [now left | right; exists body, tail]).
  - now rewrite no_quote_find_last_of, spells_default_lower.
  - now rewrite <- no_quote_find_last_of, <- spells_default_lower.
Qed.

(** ** The scan over a store *)




(** The store with the labels [Default], empty and [default]: slots 0 and
    2 are accepted, and the scan ends at slot 3. *)
Lemma store_with_empty_label_scan :
  get_collision_attribute_indices 5
    (kv3_parser (String newline EmptyString) store_with_empty_label)
  = ([0; 2], Done).
Proof. vm_compute. reflexivity. Qed.

(** ** The bytes of the file, float by float *)

Lemma data_skipn (triangles : list Triangle) :
  forall (i : nat) (t : Triangle),
    nth_error triangles i = Some t ->
    skipn (36 * i) (data triangles)
    = Triangle_bytes t ++ data (skipn (S i) triangles).
Proof.
  induction triangles as [|t0 rest IH]; intros i t Hi.
  - destruct i; discriminate Hi.
  - destruct i as [|i].
    + injection Hi as <-. reflexivity.
    + cbn [nth_error] in Hi.
      replace (36 * S i) with (36 * i + 36) by lia.
      rewrite <- skipn_skipn.
      change (data (t0 :: rest)) with (Triangle_bytes t0 ++ data rest).
      rewrite skipn_app, Triangle_bytes_length.
      change (skipn 36 (Triangle_bytes t0)) with (@nil byte).
      change (36 - sizeof_Triangle) with 0.
      cbn [skipn app]. exact (IH i t Hi).
Qed.

Lemma file_float_data (triangles : list Triangle) (i p c : nat) (t : Triangle) :
  nth_error triangles i = Some t -> p < 3 -> c < 3 ->
  file_float (data triangles) (9 * i + 3 * p + c)
  = float_bytes (component c (point p t)).
Proof.
  intros Hi Hp Hc. unfold file_float.
  replace (4 * (9 * i + 3 * p + c)) with (4 * (3 * p + c) + 36 * i) by lia.
  rewrite <- skipn_skipn, (data_skipn triangles i t Hi).
  destruct p as [|[|[|p]]]; [| | |lia];
    (destruct c as [|[|[|c]]]; [| | |lia]); reflexivity.
Qed.

(** * The claims *)

(** C1.  The source run on a hull of one square face: the four half-edges
    of [square_edges] form one closed loop over four distinct vertices and
    every index is in range, and the walk pushes three triangles, not two.
    All three have the start vertex first; the third, pushed on the step
    that closes the loop, has it last as well. *)
Theorem square_face_three_triangles :
  face_loop square_vertices square_edges 0 4 = true
  /\ triangulate_hull square_vertices [x00] square_edges []
     = ([mkTriangle (corner x00 x00) (corner x01 x00) (corner x01 x01);
         mkTriangle (corner x00 x00) (corner x01 x01) (corner x00 x01);
         mkTriangle (corner x00 x00) (corner x00 x01) (corner x00 x00)],
        Done).
Proof. split; reflexivity. Qed.

(** C2, as amended.  For every input the hull triangulation runs to its
    end: no face's walk enters its loop body more than 100 times (the
    allowance of 100 is never used up, and a larger one changes nothing),
    no read leaves [edges] or [vertices], and the triangles found are added
    behind those already there. *)
Theorem triangulate_hull_total (vertices : list Vector3) (faces : list byte)
  (edges : list Edge) (triangles : list Triangle) :
  exists emitted,
    triangulate_hull vertices faces edges triangles = (triangles ++ emitted, Done)
    /\ forall extra,
         hull_faces vertices edges (100 + extra) faces triangles
         = (triangles ++ emitted, Done).
Proof.
  destruct (hull_faces_in_range vertices edges faces triangles) as [emitted Hrun].
  exists emitted. split; [exact Hrun|].
  intros extra. now rewrite hull_faces_more_fuel.
Qed.

(** C2, counterexample to "fewer than 100 iterations".  From the first
    half-edge of [stuck_edges] the walk never returns; an allowance of 99
    entries into the loop body is used up, and the run of the source makes
    100 of them, each pushing a triangle. *)
Lemma stuck_walk_hundred_steps :
  snd (hull_faces square_vertices stuck_edges 99 [x00] []) = OutOfFuel
  /\ snd (triangulate_hull square_vertices [x00] stuck_edges []) = Done
  /\ List.length (fst (triangulate_hull square_vertices [x00] stuck_edges [])) = 100.
Proof. repeat split; vm_compute; reflexivity. Qed.

(** C3.  The source run on the blob of one byte, read as [uint8_t]: the
    text has the three characters of one encoded byte, and the vector
    returned has two elements, the decoded byte and a zero behind it. *)
Theorem one_byte_blob_two_elements :
  hex_pair_text "7F " = true
  /\ String.length "7F " / 3 / sizeof (Ty := byte) = 1
  /\ bytes_to_vec (Ty := byte) "7F " = ([x7f; x00], Done).
Proof. repeat split; reflexivity. Qed.



(** C5.  For every vertex array and every array of [int] indices, the
    triangles the mesh loop pushes are those of the triples at positions
    (i, i+1, i+2): a triple gives its one triangle exactly when its three
    values are non-negative and below the number of vertices
    ([triple_triangles]), and is passed over otherwise; while the indices
    come in threes no read leaves an array. *)
Theorem triangulate_mesh_triples (vertices : list Vector3) (indices : list Z)
  (triangles : list Triangle) :
  (Z.of_nat (List.length vertices) < 2 ^ 63)%Z ->
  Forall is_int indices ->
  fst (triangulate_mesh vertices indices triangles)
  = triangles ++ mesh_triangles vertices indices
  /\ (List.length indices mod 3 = 0 ->
      snd (triangulate_mesh vertices indices triangles) = Done).
Proof.
  intros Hsize Hint. unfold triangulate_mesh.
  exact (mesh_loop_triples vertices Hsize (List.length indices) indices []
           (List.length indices) triangles (le_n _) (le_n _) Hint).
Qed.

(** C5, the instance of the claim: indices [0,1,2,5,1,2] over four
    vertices give the triangle of the first triple and nothing else. *)
Lemma triangulate_mesh_triples_witness :
  (Z.of_nat (List.length square_vertices) < 2 ^ 63)%Z
  /\ Forall is_int [0; 1; 2; 5; 1; 2]%Z
  /\ fst (triangulate_mesh square_vertices [0; 1; 2; 5; 1; 2]%Z [])
     = [mkTriangle (corner x00 x00) (corner x01 x00) (corner x01 x01)]
  /\ snd (triangulate_mesh square_vertices [0; 1; 2; 5; 1; 2]%Z []) = Done.
Proof.
  assert (Hsize : (Z.of_nat (List.length square_vertices) < 2 ^ 63)%Z)
    by (vm_compute; reflexivity).
  assert (Hint : Forall is_int [0; 1; 2; 5; 1; 2]%Z)
    by (repeat constructor; unfold is_int; lia).
  split; [exact Hsize|]. split; [exact Hint|].
  destruct (triangulate_mesh_triples square_vertices [0; 1; 2; 5; 1; 2]%Z []
              Hsize Hint) as [Hfst Hsnd].
  split; [exact Hfst | exact (Hsnd eq_refl)].
Defined.

(** C6.  The source run on the index blob of a mesh of one triangle.  The
    decoder hands back the three indices and a zero behind them; the loop
    takes the zero at position 3 for the head of a triple, finds it below
    the number of vertices and reads position 4, which is outside the
    array. *)
Theorem one_triangle_mesh_reads_past_end :
  hex_pair_text one_triangle_blob = true
  /\ bytes_to_vec (Ty := Z) one_triangle_blob = ([0; 1; 2; 0]%Z, Done)
  /\ at_index [0; 1; 2; 0]%Z (3 + 1) = None
  /\ triangulate_mesh square_vertices [0; 1; 2; 0]%Z []
     = ([mkTriangle (corner x00 x00) (corner x01 x00) (corner x01 x01)],
        OutOfRange).
Proof. repeat split; vm_compute; reflexivity. Qed.

(** C7.  Of the slots the scan meets, those accepted are exactly the ones
    whose label says [default]: the word in any mix of capitals and small
    letters, either as the whole label, or between a leading double quote
    and the last double quote of the label, what stands behind the last
    quote being dropped with the two quotes.  These are the labels that
    [clean_collision_string] turns into [default].  The labels [Default],
    [DEFAULT] and the quoted [default] with a line feed behind it are
    accepted. *)
Theorem default_slots_accepted (parser : c_kv3_parser) (n fuel : nat) :
  first_empty_slot parser n ->
  n < fuel ->
  (forall j,
     In j (fst (get_collision_attribute_indices fuel parser))
     <-> j < n /\ label_says_default (slot_label parser j))
  /\ (forall j,
        In j (fst (get_collision_attribute_indices fuel parser))
        <-> j < n /\ clean_collision_string (slot_label parser j) = "default"%string)
  /\ (forall j, j < n ->
        slot_label parser j = "Default"%string
        \/ slot_label parser j = "DEFAULT"%string
        \/ slot_label parser j = quoted_default_line ->
        In j (fst (get_collision_attribute_indices fuel parser))).
Proof.
  intros Hfirst Hfuel.
  rewrite (get_collision_attribute_indices_filter parser n Hfirst fuel Hfuel).
  cbn [fst].
  assert (Hiff : forall j,
             In j (filter (fun j => is_default (slot_label parser j)) (seq 0 n))
             <-> j < n /\ label_says_default (slot_label parser j)).
  { intros j. rewrite filter_In, in_seq, is_default_says_default.
    intuition lia. }
  split; [exact Hiff|]. split.
  - intros j. rewrite filter_In, in_seq. unfold is_default.
    rewrite String.eqb_eq. intuition lia.
  - intros j Hj Hlabel. apply Hiff. split; [exact Hj|].
    destruct Hlabel as [-> | [-> | ->]].
    + left. reflexivity.
    + left. reflexivity.
    + right. exists "default"%string, (String newline EmptyString).
      repeat split; reflexivity.
Qed.

Lemma default_slots_accepted_witness :
  first_empty_slot (one_slot_parser quoted_default_line) 1
  /\ 1 < 2
  /\ In 0 (fst (get_collision_attribute_indices 2
                  (one_slot_parser quoted_default_line)))
  /\ (In 1 (fst (get_collision_attribute_indices 2
                   (one_slot_parser quoted_default_line)))
      <-> 1 < 1 /\ label_says_default
                     (slot_label (one_slot_parser quoted_default_line) 1)).
Proof.
  assert (Hfirst : first_empty_slot (one_slot_parser quoted_default_line) 1).
  { split; [reflexivity|].
    intros j Hj. destruct j as [|j]; [|lia]. discriminate. }
  assert (Hfuel : 1 < 2) by lia.
  split; [exact Hfirst|]. split; [exact Hfuel|].
  destruct (default_slots_accepted _ 1 2 Hfirst Hfuel) as [Hsays [_ Hlabels]].
  split.
  - apply (Hlabels 0 ltac:(lia)). right; right; reflexivity.
  - exact (Hsays 1).
Defined.

(** C8, as amended.  A file is written exactly when the triangle list is
    not empty and the output stream opened.  It then has 36 bytes for each
    triangle and nothing else: counting the groups of four bytes from the
    start of the file, group [9 * i + 3 * p + c] is component [c] of point
    [p] of the [i]-th triangle pushed.  Read with its first byte as the
    lowest, the group is the bit pattern of that [float], and the IEEE-754
    single-precision number of the pattern is the [float]'s value. *)
Theorem write_tri_bytes (is_open : bool) (triangles : list Triangle) :
  ((exists bytes, write_tri is_open triangles = Some bytes)
   <-> triangles <> [] /\ is_open = true)
  /\ (forall bytes,
        write_tri is_open triangles = Some bytes ->
        List.length bytes = List.length triangles * 36
        /\ forall (i p c : nat) (t : Triangle),
             nth_error triangles i = Some t -> p < 3 -> c < 3 ->
             le32 (file_float bytes (9 * i + 3 * p + c))
             = float_bits (component c (point p t))
             /\ binary32 (le32 (file_float bytes (9 * i + 3 * p + c)))
                = float_value (component c (point p t))).
Proof.
  rewrite write_tri_data. split.
  - destruct triangles as [|t rest]; cbn [empty negb andb].
    + split; [intros [bytes Hb]; discriminate Hb | intros [Hne _]; now destruct Hne].
    + destruct is_open; split.
      * intros _. split; [discriminate | reflexivity].
      * intros _. now exists (data (t :: rest)).
      * intros [bytes Hb]. discriminate Hb.
      * intros [_ Hopen]. discriminate Hopen.
  - intros bytes Hbytes.
    destruct (negb (empty triangles) && is_open); [|discriminate Hbytes].
    injection Hbytes as <-. split; [exact (data_length triangles)|].
    intros i p c t Hi Hp Hc.
    rewrite (file_float_data triangles i p c t Hi Hp Hc).
    split; reflexivity.
Qed.

(** C8, an instance: two triangles and an open stream.  The file has 72
    bytes; its group 5, the third component of the second point of the
    first triangle, is the bytes 14 15 16 17 in that order; and its group 9,
    the first component of the second triangle, is 00 00 80 3F, which is
    the number 1. *)
Lemma write_tri_bytes_witness :
  exists bytes,
    write_tri true
      [counting_triangle;
       mkTriangle (mkVector3 one_float zero_float zero_float)
                  zero_vector zero_vector]
    = Some bytes
    /\ List.length bytes = 2 * 36
    /\ file_float bytes 5 = [x14; x15; x16; x17]
    /\ le32 (file_float bytes 5) = 387323156%Z
    /\ file_float bytes 9 = [x00; x00; x80; x3f]
    /\ binary32 (le32 (file_float bytes 9)) = S754_finite false 8388608 (-23).
Proof.
  pose (triangles :=
          [counting_triangle;
           mkTriangle (mkVector3 one_float zero_float zero_float)
                      zero_vector zero_vector]).
  destruct (write_tri_bytes true triangles) as [Hwritten Hcontent].
  assert (Hsome : triangles <> [] /\ true = true)
    by (split; [intros Hnil; discriminate Hnil | reflexivity]).
  destruct (proj2 Hwritten Hsome) as [bytes Hbytes].
  exists bytes. split; [exact Hbytes|].
  destruct (Hcontent bytes Hbytes) as [Hlen Hfloats].
  split; [exact Hlen|].
  destruct (Hfloats 0 1 2 counting_triangle eq_refl ltac:(lia) ltac:(lia))
    as [Hbits5 _].
  destruct (Hfloats 1 0 0 (mkTriangle (mkVector3 one_float zero_float zero_float)
                             zero_vector zero_vector)
              eq_refl ltac:(lia) ltac:(lia))
    as [_ Hvalue9].
  change (9 * 0 + 3 * 1 + 2) with 5 in Hbits5.
  change (9 * 1 + 3 * 0 + 0) with 9 in Hvalue9.
  assert (Hsame : bytes = data triangles).
  { rewrite write_tri_data in Hbytes. now injection Hbytes as <-. }
  split; [rewrite Hsame; vm_compute; reflexivity|].
  split; [rewrite Hbits5; vm_compute; reflexivity|].
  split; [rewrite Hsame; vm_compute; reflexivity|].
  rewrite Hvalue9. vm_compute. reflexivity.
Defined.

(** C8, counterexample.  One triangle is at hand and the output stream did
    not open: nothing is written. *)
Lemma unopened_output_not_written :
  empty [mkTriangle zero_vector zero_vector zero_vector] = false
  /\ write_tri false [mkTriangle zero_vector zero_vector zero_vector] = None.
Proof. split; reflexivity. Qed.

(** C9.  For a face whose loop of [n] half-edges, [n >= 3], comes back to
    the start half-edge within the 100 steps, with every half-edge inside
    [edges] and every origin inside [vertices], the walk pushes the [n - 1]
    triangles of [fan]; the last of them, pushed on the step that closes
    the loop, has the start vertex both first and third. *)
Theorem closed_face_loop_fan (vertices : list Vector3) (edges : list Edge)
  (start_edge : byte) (n : nat) (triangles : list Triangle) :
  3 <= n <= 101 ->
  face_loop vertices edges (u8 start_edge) n = true ->
  triangulate_hull vertices [start_edge] edges triangles
  = (triangles ++ fan vertices edges (u8 start_edge) n, Done)
  /\ List.length (fan vertices edges (u8 start_edge) n) = n - 1
  /\ exists front t,
       fan vertices edges (u8 start_edge) n = front ++ [t]
       /\ p1 t = origin_vertex vertices edges (u8 start_edge)
       /\ p3 t = p1 t.
Proof.
  intros Hn Hloop.
  split; [|split].
  - apply triangulate_hull_closed_loop; [lia | exact Hloop].
  - unfold fan. now rewrite length_map, length_seq.
  - exists (map (fan_triangle vertices edges (u8 start_edge)) (seq 1 (n - 2))),
      (fan_triangle vertices edges (u8 start_edge) (n - 1)).
    split; [|split].
    + unfold fan. replace (n - 1) with (S (n - 2)) at 1 by lia.
      rewrite seq_S, map_app. cbn [map].
      replace (1 + (n - 2)) with (n - 1) by lia. reflexivity.
    + reflexivity.
    + unfold fan_triangle. cbn [p1 p3].
      replace (S (n - 1)) with n by lia.
      now rewrite (face_loop_closed _ _ _ _ Hloop).
Qed.

Lemma closed_face_loop_fan_witness :
  3 <= 4 <= 101
  /\ face_loop square_vertices square_edges (u8 x00) 4 = true
  /\ triangulate_hull square_vertices [x00] square_edges []
     = ([] ++ fan square_vertices square_edges (u8 x00) 4, Done)
  /\ List.length (fan square_vertices square_edges (u8 x00) 4) = 4 - 1.
Proof.
  assert (Hn : 3 <= 4 <= 101) by lia.
  assert (Hloop : face_loop square_vertices square_edges (u8 x00) 4 = true)
    by reflexivity.
  split; [exact Hn|]. split; [exact Hloop|].
  destruct (closed_face_loop_fan square_vertices square_edges x00 4 [] Hn Hloop)
    as [Hrun [Hlen _]].
  split; [exact Hrun | exact Hlen].
Defined.

(** C10.  For every non-empty text the vector the decoder hands back has
    [bytes.size() / 3 / sizeof(Ty) + 1] elements, so at least one, and
    [empty()] is false for it: it is sized before the copy loop and the
    loop never resizes it.  On a text of hex pairs the copy loop ends
    inside the string and inside the vector. *)
Theorem bytes_to_vec_never_empty (Ty : Type) (E : Element Ty) (bytes : string) :
  bytes <> EmptyString ->
  List.length (fst (bytes_to_vec (Ty := Ty) bytes))
  = String.length bytes / 3 / sizeof (Ty := Ty) + 1
  /\ empty (fst (bytes_to_vec (Ty := Ty) bytes)) = false
  /\ (hex_pair_text bytes = true -> snd (bytes_to_vec (Ty := Ty) bytes) = Done).
Proof.
  intros Hne. pose proof (bytes_to_vec_length (Ty := Ty) bytes Hne) as Hlen.
  split; [exact Hlen|]. split; [|apply bytes_to_vec_hex_pairs].
  destruct (fst (bytes_to_vec bytes)); [cbn in Hlen; lia | reflexivity].
Qed.

(** C10, an instance: one byte is less than one [float]; the vector has one
    element all the same. *)
Lemma bytes_to_vec_never_empty_witness :
  "3F "%string <> EmptyString
  /\ List.length (fst (bytes_to_vec (Ty := float) "3F ")) = 0 + 1
  /\ empty (fst (bytes_to_vec (Ty := float) "3F ")) = false.
Proof.
  assert (Hne : "3F "%string <> EmptyString) by discriminate.
  split; [exact Hne|].
  destruct (bytes_to_vec_never_empty float Element_float "3F " Hne)
    as [Hlen [Hempty _]].
  split; [exact Hlen | exact Hempty].
Defined.

